(** * knip: the expo plugin's dependency attribution and the issue classifier

    The first part embeds [getDependencies] of
    [packages/knip/src/plugins/expo/helpers.ts].  The function builds a
    JavaScript [Set] of freshly allocated [Input] objects by repeated
    [inputs.add(...)], so it is written in a small state monad: the state
    holds the allocator of object identities, the [Set] bound to [inputs],
    and (untouched) everything that existed before the call.  [ExpoHeap]
    has the same function with its two arguments, the inputs and the [Set]
    as cells of one mutable heap, to say what a call writes.

    The second part models what the documentation page "Handling Issues"
    and the specification say of the analysis itself: the attribution
    table, unused files, namespace references and unused exports. *)

From Stdlib Require Import Ascii.
From stdpp Require Import base strings list gmap.

Open Scope string_scope.
Open Scope list_scope.

#[global] Set Warnings "-clear-no-such-hyp".

(** ** A state monad for JavaScript objects with identity *)

Module Js.

(** A JavaScript object carries an identity; two object literals evaluated
    at different times are different objects even when their properties
    agree.  [Set] membership (SameValueZero) compares identities. *)
Record Realm (W : Type) (Obj : Type) := MkRealm {
  outside : W;            (* every object that existed before the call,
                             the call's arguments among them *)
  next_ref : nat;         (* the next unused object identity *)
  inputs : list Obj;      (* the Set bound to [inputs], in insertion order *)
}.
Arguments MkRealm {W Obj}.
Arguments outside {W Obj}.
Arguments next_ref {W Obj}.
Arguments inputs {W Obj}.

Definition M (W Obj A : Type) : Type := Realm W Obj → A * Realm W Obj.

#[global] Instance M_ret {W Obj} : MRet (M W Obj) := λ A x s, (x, s).
#[global] Instance M_bind {W Obj} : MBind (M W Obj) :=
  λ A B f m s, let '(a, s') := m s in f a s'.

(** Evaluating an object literal: a fresh identity. *)
Definition alloc {W Obj} : M W Obj nat :=
  λ s, (next_ref s, MkRealm (outside s) (S (next_ref s)) (inputs s)).

Section SetOps.
Context {W Obj : Type} (ident : Obj → nat).

(** [set.has(x)] *)
Definition has (x : Obj) (set : list Obj) : bool :=
  existsb (λ y, Nat.eqb (ident y) (ident x)) set.

(** [inputs.add(x)]: appended unless the same object is already there. *)
Definition Set_add (x : Obj) : M W Obj unit :=
  λ s, (tt, if has x (inputs s) then s
            else MkRealm (outside s) (next_ref s) (inputs s ++ [x])).

(** [for (const x of xs) body(x)] *)
Fixpoint for_of {A} (xs : list A) (body : A → M W Obj unit) : M W Obj unit :=
  match xs with
  | [] => mret tt
  | x :: xs' => body x ;; for_of xs' body
  end.

(** [inputs = new Set(xs)]: an empty set filled from the iterable. *)
Definition new_Set (xs : list Obj) : M W Obj unit :=
  (λ s, (tt, MkRealm (outside s) (next_ref s) [])) ;; for_of xs Set_add.

(** [[...inputs]] *)
Definition spread : M W Obj (list Obj) := λ s, (inputs s, s).
End SetOps.

(** [if (c) { body }] *)
Definition when {W Obj} (c : bool) (body : M W Obj unit) : M W Obj unit :=
  if c then body else mret tt.

(** [xs.includes(x)] on an array of strings *)
Definition includes (x : string) (xs : list string) : bool :=
  bool_decide (x ∈ xs).

(** Truthiness of an optional string: [undefined] and [''] are falsy. *)
Definition truthy (v : option string) : bool :=
  match v with
  | Some s => negb (String.eqb s "")
  | None => false
  end.

(** Truthiness of an optional object: any object is truthy. *)
Definition present {A} (v : option A) : bool :=
  match v with Some _ => true | None => false end.

(** [Object.keys(o)].  The keys come out in the map's order, not in
    insertion order; the plugin only asks [includes] of them. *)
Definition Object_keys {V} (o : gmap string V) : list string :=
  (map_to_list o).*1.

End Js.

(** ** The expo plugin *)

Module Expo.
Import Js.

(** Modelled from the spec: [util/input.ts] is not among the sources.  An
    attributed dependency is the package name together with the optional
    production-vs-dev classification; [toDependency] leaves the
    classification out and [toProductionDependency] sets it.  [ref] is the
    identity of the object the call returns. *)
Record Input := MkInput {
  ref : nat;
  type : string;
  specifier : string;
  production : bool;
}.

Definition toDependency {W} (specifier : string) : M W Input Input :=
  r ← alloc; mret (MkInput r "dependency" specifier false).

Definition toProductionDependency {W} (specifier : string) : M W Input Input :=
  r ← alloc; mret (MkInput r "dependency" specifier true).

(** What an [Input] says, without the identity of the object saying it. *)
Definition content (i : Input) : string * bool := (specifier i, production i).

(** Modelled from the spec: [plugins/expo/types.ts] is not among the
    sources and the specification does not list the fields; the records
    below have exactly the properties [getDependencies] reads, each of them
    optional. *)
Definition Props := list (string * string).

Inductive PluginEntry :=
  | PluginName (name : string)                  (* 'expo-font' *)
  | PluginTuple (name : string) (props : Props) (* ['expo-font', {...}] *).

Record Updates := { enabled : option bool }.
Record IosConfig := { ios_backgroundColor : option string }.
Record AndroidConfig := { android_userInterfaceStyle : option string }.

Record AppConfig := {
  platforms : option (list string);
  notification : option Props;
  updates : option Updates;
  backgroundColor : option string;
  userInterfaceStyle : option string;
  ios : option IosConfig;
  android : option AndroidConfig;
  androidNavigationBar : option Props;
  plugins : option (list PluginEntry);
}.

Inductive AppConfigExport :=
  | Bare (config : AppConfig)      (* { platforms: ..., ... } *)
  | Wrapped (expo : AppConfig)     (* { expo: { platforms: ..., ... } } *).

Inductive ExpoConfig :=
  | ConfigObject (c : AppConfigExport)
  | ConfigFunction (f : unit → AppConfigExport).

(** The part of [package.json] the plugin is handed. *)
Record PackageJson := {
  main : option string;
  dependencies : option (gmap string string);
  devDependencies : option (gmap string string);
}.

Record PluginOptions := { manifest : PackageJson }.

Section GetDependencies.
Context {W : Type}.

(** [util/modules.ts] is not among the sources: the helper is a
    parameter.  [None] stands for [undefined]. *)
Variable getPackageNameFromModuleSpecifier : string → option string.

(** [plugin => { const pluginName = Array.isArray(plugin) ? plugin[0] : plugin; ... }] *)
Definition pluginName (plugin : PluginEntry) : string :=
  match plugin with
  | PluginName name => name
  | PluginTuple name _ => name
  end.

(** [.filter(Boolean)] on an array of [string | undefined] *)
Definition filter_Boolean (xs : list (option string)) : list string :=
  omap (λ x, match x with
             | Some s => if String.eqb s "" then None else Some s
             | None => None
             end) xs.

Definition getDependencies (localConfig : ExpoConfig) (options : PluginOptions)
  : M W Input (list Input) :=
  let manifest := manifest options in
  let expoConfig :=
    match localConfig with
    | ConfigFunction f => f tt
    | ConfigObject c => c
    end in
  let config :=
    match expoConfig with
    | Wrapped expo => expo
    | Bare config => config
    end in
  let platforms := default ["ios"; "android"] (platforms config) in
  let pluginPackages :=
    default []
      ((λ ps, filter_Boolean
                (map (λ plugin, getPackageNameFromModuleSpecifier (pluginName plugin)) ps))
         <$> plugins config) in
  initial ← mapM toDependency pluginPackages;
  new_Set ref initial ;;
  let allowedPackages := ["expo-atlas"; "expo-dev-client"] in
  let allowedProductionPackages := ["expo-insights"] in
  let manifestDependencies := Object_keys (default ∅ (dependencies manifest)) in
  for_of allowedPackages (λ pkg,
    when (includes pkg manifestDependencies)
      (x ← toDependency pkg; Set_add ref x)) ;;
  for_of allowedProductionPackages (λ pkg,
    when (includes pkg manifestDependencies)
      (x ← toProductionDependency pkg; Set_add ref x)) ;;
  when (negb (bool_decide ((updates config ≫= enabled) = Some false)))
    (x ← toProductionDependency "expo-updates"; Set_add ref x) ;;
  when (present (notification config))
    (x ← toProductionDependency "expo-notifications"; Set_add ref x) ;;
  let isExpoRouter := bool_decide (main manifest = Some "expo-router/entry") in
  when isExpoRouter
    (x ← toProductionDependency "expo-router"; Set_add ref x) ;;
  when (includes "web" platforms)
    ((x ← toProductionDependency "react-native-web"; Set_add ref x) ;;
     (x ← toProductionDependency "react-dom"; Set_add ref x) ;;
     when (negb isExpoRouter)
       (x ← toDependency "@expo/metro-runtime"; Set_add ref x)) ;;
  when ((includes "android" platforms
         && (truthy (userInterfaceStyle config)
             || truthy (android config ≫= android_userInterfaceStyle)))
        || (includes "ios" platforms
            && (truthy (backgroundColor config)
                || truthy (ios config ≫= ios_backgroundColor))))
    (x ← toProductionDependency "expo-system-ui"; Set_add ref x) ;;
  when (includes "android" platforms && present (androidNavigationBar config))
    (x ← toProductionDependency "expo-navigation-bar"; Set_add ref x) ;;
  spread.
End GetDependencies.

(** The first segment of a specifier and, after a [/], what follows it. *)
Fixpoint segment (s : string) : string * option string :=
  match s with
  | EmptyString => (EmptyString, None)
  | String c rest =>
      if Ascii.eqb c "/"%char then (EmptyString, Some rest)
      else let '(seg, tl) := segment rest in (String c seg, tl)
  end.

(** Modelled from the spec: [getPackageNameFromModuleSpecifier] of
    [util/modules.ts], which is not among the sources.  The package name is
    "derived by stripping subpath from the specifier": the first segment,
    or the first two for a scoped name ([@scope/pkg/sub]); a relative or
    absolute path ([./a], [/a]) and an alias ([#alias]) name no package.
    The properties below hold for every such helper; this one serves the
    concrete inputs. *)
Definition packageNameOf (spec : string) : option string :=
  match spec with
  | EmptyString => None
  | String c _ =>
      if Ascii.eqb c "."%char || Ascii.eqb c "/"%char || Ascii.eqb c "#"%char then None
      else
        let '(first, tl) := segment spec in
        if Ascii.eqb c "@"%char then
          match tl with
          | Some rest => Some (first ++ "/" ++ fst (segment rest))%string
          | None => Some first
          end
        else Some first
  end.

End Expo.

(** ** The dependency attribution table *)

Module Attribution.

(** Modelled from the spec: the workspace model and the issue classifier
    are not among the sources.  "Dependency attribution table per
    workspace: map package-name -> {declared-in-bucket,
    referenced-from-files, referenced-by-plugin, marked-ignore}.  A package
    is unused iff referenced-from-files and referenced-by-plugin are both
    empty and not marked-ignore."  A plugin's attributed dependencies are
    recorded under the plugin's name in referenced-by-plugin; a package
    that no manifest bucket declares has [declared_in_bucket = None]. *)
Inductive Bucket := Production | Development | Peer | Optional.

Record Entry := MkEntry {
  declared_in_bucket : option Bucket;
  referenced_from_files : gset string;
  referenced_by_plugin : gset string;
  marked_ignore : bool;
}.

Definition blank : Entry := MkEntry None ∅ ∅ false.

Definition unused (e : Entry) : bool :=
  bool_decide (referenced_from_files e = ∅)
  && bool_decide (referenced_by_plugin e = ∅)
  && negb (marked_ignore e).

Definition by_plugin (plugin : string) (e : Entry) : Entry :=
  MkEntry (declared_in_bucket e) (referenced_from_files e)
          ({[plugin]} ∪ referenced_by_plugin e) (marked_ignore e).

Definition attribute (plugin : string) (table : gmap string Entry) (pkg : string)
  : gmap string Entry :=
  <[pkg := by_plugin plugin (default blank (table !! pkg))]> table.

Definition attributeAll (plugin : string) (pkgs : list string)
    (table : gmap string Entry) : gmap string Entry :=
  foldl (attribute plugin) table pkgs.

(** "Unused dependencies per workspace = declared deps with empty
    attribution and not marked-ignore and not on the always-ignored list." *)
Definition unusedDependencies (alwaysIgnored : gset string)
    (table : gmap string Entry) : list string :=
  (filter (λ kv, is_Some (declared_in_bucket kv.2)
                 ∧ unused kv.2 = true
                 ∧ kv.1 ∉ alwaysIgnored) (map_to_list table)).*1.

(** The plugin is in the package's referenced-by-plugin set. *)
Definition recorded (plugin name : string) (table : gmap string Entry) : Prop :=
  ∃ e, table !! name = Some e ∧ plugin ∈ referenced_by_plugin e.

End Attribution.

(** ** Unused files and unused exports *)

Module Analyzer.

(** Modelled from the spec: the reference extractor, the reachability
    engine and the issue classifier are not among the sources.  The model
    follows the documentation page "Handling Issues" where it speaks
    ("unused files = project files - (entry files + resolved files)",
    "Dynamic import specifiers aren't resolved", "By default, Knip does
    not report unused exports of entry files") and sections 4.6 to 4.8 of
    the specification elsewhere. *)

(** The argument of [import(...)].  A template literal [`./a-${x}.ts`] is
    the concatenation of its parts. *)
Inductive SpecifierExpr :=
  | Literal (s : string)                          (* './entry.ts' *)
  | Identifier (x : string)                       (* name *)
  | Concat (a b : SpecifierExpr)                  (* a + b *)
  | PathJoin (a b : SpecifierExpr)                (* path.join(a, b) *).

(** The value the argument takes at run time, which the analysis never
    computes. *)
Fixpoint evaluate (env : string → string) (e : SpecifierExpr) : string :=
  match e with
  | Literal s => s
  | Identifier x => env x
  | Concat a b => (evaluate env a ++ evaluate env b)%string
  | PathJoin a b => (evaluate env a ++ "/" ++ evaluate env b)%string
  end.

(** How a file uses a namespace binding [import * as ns from ...]. *)
Inductive NamespaceUse :=
  | Member (name : string)             (* ns.foo *)
  | Destructure (names : list string)  (* const { a, b } = ns *)
  | Enumerate                          (* Object.values(ns), Object.entries(ns) *)
  | ForIn                              (* for (const key in ns) *)
  | Spread                             (* { ...ns } *)
  | Argument                           (* send(ns) *).

Inductive Binding :=
  | SideEffectOnly                     (* import './a' *)
  | Named (names : list string)        (* import { a, b } from './a' *)
  | Namespace (uses : list NamespaceUse).

Inductive Import :=
  | Static (specifier : string) (binding : Binding)
  | Dynamic (argument : SpecifierExpr) (binding : Binding).

Record Export := { name : string; jsdoc : list string }.

Record SourceFile := { imports : list Import; exports : list Export }.

(** What a use marks on the module the binding comes from. *)
Inductive Mark :=
  | MarkName (name : string)
  | MarkAll.

#[global] Instance Mark_eq_dec : EqDecision Mark.
Proof. solve_decision. Defined.

#[global] Instance NamespaceUse_eq_dec : EqDecision NamespaceUse.
Proof. solve_decision. Defined.

#[global] Instance Binding_eq_dec : EqDecision Binding.
Proof. solve_decision. Defined.

#[global] Instance Export_eq_dec : EqDecision Export.
Proof. solve_decision. Defined.

Record Options := {
  includeEntryExports : bool;
  ignoreTags : list string;   (* user-configured tags equivalent to @public *)
}.

(** "[import()] calls (with string-literal argument only; otherwise
    dynamic-unresolvable)": a specifier that is not a literal yields no
    import edge. *)
Definition importEdges (i : Import) : list (string * Binding) :=
  match i with
  | Static s b => [(s, b)]
  | Dynamic (Literal s) b => [(s, b)]
  | Dynamic _ _ => []
  end.

Definition isLiteral (e : SpecifierExpr) : bool :=
  match e with Literal _ => true | _ => false end.

(** "Direct named use marks that specific export referenced; namespace
    use ([ns.foo]) marks [foo]; whole-namespace iteration
    ([Object.values(ns)], [for ... in ns], spread, pass as argument to
    unknown function) marks all exports of the source module as referenced;
    destructuring of namespace marks the destructured names only." *)
Definition marks (u : NamespaceUse) : list Mark :=
  match u with
  | Member n => [MarkName n]
  | Destructure ns => MarkName <$> ns
  | Enumerate => [MarkAll]
  | ForIn => [MarkAll]
  | Spread => [MarkAll]
  | Argument => [MarkAll]
  end.

Definition bindingMarks (b : Binding) : list Mark :=
  match b with
  | SideEffectOnly => []
  | Named ns => MarkName <$> ns
  | Namespace uses => uses ≫= marks
  end.

(** A whole-namespace use in the words of the specification. *)
Definition wholeNamespace (u : NamespaceUse) : bool :=
  match u with
  | Enumerate | ForIn | Spread | Argument => true
  | Member _ | Destructure _ => false
  end.

Section Analysis.
(** The module resolver (referring file, specifier) is a parameter;
    [None] is an external package or an unresolved specifier. *)
Variable resolve : string → string → option string.
Variable files : gmap string SourceFile.   (* the project files *)
Variable entry : gset string.              (* the entry files *)

Definition importsOf (f : string) : list Import :=
  match files !! f with
  | Some sf => imports sf
  | None => []
  end.

(** The internal import edges of a file: target and binding. *)
Definition edges (f : string) : list (string * Binding) :=
  omap (λ sb : string * Binding,
          (λ t, (t, sb.2)) <$> resolve f sb.1)
       (importsOf f ≫= importEdges).

(** The worklist of the reachability engine: pop a file, skip it when
    already processed, otherwise mark it and enqueue its targets. *)
Fixpoint traverse (fuel : nat) (worklist : list string) (reached : gset string)
  : gset string :=
  match fuel, worklist with
  | 0, _ => reached
  | _, [] => reached
  | S fuel', f :: rest =>
      if decide (f ∈ reached) then traverse fuel' rest reached
      else traverse fuel' (rest ++ (edges f).*1) ({[f]} ∪ reached)
  end.

(** The edges still to be enqueued: those of the project files that
    are not yet processed. *)
Definition pending (reached : gset string) : nat :=
  sum_list_with (λ g, length (edges g)) (elements (dom files ∖ reached)).

(** Every step of the worklist takes one from [length worklist + pending
    reached], so this many steps empty the worklist ("monotonic set growth
    over finite universe"). *)
Definition budget : nat := length (elements entry) + pending ∅.

(** The entry files together with the files resolved from them. *)
Definition resolved : gset string :=
  traverse budget (elements entry) ∅.

(** "The transitive closure under internal import edges starting from the
    entry set." *)
Inductive Reachable : string → Prop :=
  | reachable_entry f : f ∈ entry → Reachable f
  | reachable_import g t b : Reachable g → (t, b) ∈ edges g → Reachable t.

(** "unused files = project files - (entry files + resolved files)" *)
Definition unusedFiles : gset string :=
  dom files ∖ (entry ∪ resolved).

(** The reference edges the processed files contribute. *)
Definition references : list (string * Mark) :=
  elements resolved ≫= λ f,
    edges f ≫= λ tb, (λ m, (tb.1, m)) <$> bindingMarks tb.2.

Definition referenced (refs : list (string * Mark)) (t : string) (e : Export) : bool :=
  bool_decide ((t, MarkAll) ∈ refs ∨ (t, MarkName (name e)) ∈ refs).

Definition suppressed (opts : Options) (e : Export) : bool :=
  bool_decide ("@public" ∈ jsdoc e)
  || existsb (λ tag, bool_decide (tag ∈ jsdoc e)) (ignoreTags opts).

(** "Unused exports = exports of files that are reachable but whose
    export has zero references; suppressed when the owning file is in the
    entry set unless the explicit include entry exports option is set;
    suppressed when tagged @public or equivalent." *)
Definition reported (opts : Options) (refs : list (string * Mark))
    (t : string) (e : Export) : bool :=
  negb (referenced refs t e)
  && (includeEntryExports opts || negb (bool_decide (t ∈ entry)))
  && negb (suppressed opts e).

Definition exportsOf (f : string) : list Export :=
  match files !! f with
  | Some sf => exports sf
  | None => []
  end.

Definition unusedExports (opts : Options) : list (string * Export) :=
  let refs := references in
  elements resolved ≫= λ t,
    (λ e, (t, e)) <$> filter (λ e, reported opts refs t e = true) (exportsOf t).
End Analysis.

(** A resolver for the examples: [./a.js] in the directory of the
    project is the file [a.js]. *)
Definition resolveSibling (referrer specifier : string) : option string :=
  match specifier with
  | String "." (String "/" rest) => Some rest
  | _ => None
  end.

End Analyzer.

(** ** What the plugin returns, as a list *)

Module ExpoSummary.
Import Js Expo.

(** The names [config.plugins] contributes, in order. *)
Definition pluginPackages (getPackageName : string → option string)
    (config : AppConfig) : list string :=
  default []
    ((λ ps, filter_Boolean (map (λ plugin, getPackageName (pluginName plugin)) ps))
       <$> plugins config).

Definition configOf (localConfig : ExpoConfig) : AppConfig :=
  match match localConfig with
        | ConfigFunction f => f tt
        | ConfigObject c => c
        end with
  | Wrapped expo => expo
  | Bare config => config
  end.

Definition platformsOf (config : AppConfig) : list string :=
  default ["ios"; "android"] (platforms config).

Definition manifestKeys (m : PackageJson) : list string :=
  Object_keys (default ∅ (dependencies m)).

Definition isExpoRouter (m : PackageJson) : bool :=
  bool_decide (main m = Some "expo-router/entry").

Definition one (c : bool) (pkg : string) (prod : bool) : list (string * bool) :=
  if c then [(pkg, prod)] else [].

(** The contents of the inputs [getDependencies] returns, in the order of
    the [add] calls; [getDependencies_contents] below proves it. *)
Definition attributed (getPackageName : string → option string)
    (localConfig : ExpoConfig) (options : PluginOptions) : list (string * bool) :=
  let config := configOf localConfig in
  let m := manifest options in
  let platforms := platformsOf config in
  ((λ id, (id, false)) <$> pluginPackages getPackageName config)
  ++ one (includes "expo-atlas" (manifestKeys m)) "expo-atlas" false
  ++ one (includes "expo-dev-client" (manifestKeys m)) "expo-dev-client" false
  ++ one (includes "expo-insights" (manifestKeys m)) "expo-insights" true
  ++ one (negb (bool_decide ((updates config ≫= enabled) = Some false))) "expo-updates" true
  ++ one (present (notification config)) "expo-notifications" true
  ++ one (isExpoRouter m) "expo-router" true
  ++ one (includes "web" platforms) "react-native-web" true
  ++ one (includes "web" platforms) "react-dom" true
  ++ one (includes "web" platforms && negb (isExpoRouter m)) "@expo/metro-runtime" false
  ++ one ((includes "android" platforms
           && (truthy (userInterfaceStyle config)
               || truthy (android config ≫= android_userInterfaceStyle)))
          || (includes "ios" platforms
              && (truthy (backgroundColor config)
                  || truthy (ios config ≫= ios_backgroundColor))))
         "expo-system-ui" true
  ++ one (includes "android" platforms && present (androidNavigationBar config))
         "expo-navigation-bar" true.

(** Every object of the set was allocated before [next_ref] and is a
    dependency input. *)
Definition allocated {W} (s : Realm W Input) : Prop :=
  Forall (λ i, ref i < next_ref s ∧ type i = "dependency") (inputs s).

(** [adds m l R]: from a state whose set is allocated, [m] appends inputs
    of contents [l] to the set, touches nothing outside, and returns a
    value related to the final set by [R]. *)
Definition adds {W A} (m : M W Input A) (l : list (string * bool))
    (R : A → list Input → Prop) : Prop :=
  ∀ s, allocated s →
    allocated (m s).2
    ∧ content <$> inputs (m s).2 = (content <$> inputs s) ++ l
    ∧ outside (m s).2 = outside s
    ∧ R (m s).1 (inputs (m s).2).

(** A list of objects allocated one after the other from [lo]. *)
Fixpoint consecutive (lo : nat) (xs : list Input) : Prop :=
  match xs with
  | [] => True
  | x :: xs' => ref x = lo ∧ consecutive (S lo) xs'
  end.

End ExpoSummary.

(** ** The statements about the plugin, and sample inputs *)

Module ExpoClaims.
Import Js Expo ExpoSummary.

Section Statements.
Context {W : Type}.
Variable getPackageName : string → option string.

(** The array a call returns, and what its inputs say. *)
Definition returned (localConfig : ExpoConfig) (options : PluginOptions)
    (s : Realm W Input) : list Input :=
  (getDependencies getPackageName localConfig options s).1.

Definition contents (localConfig : ExpoConfig) (options : PluginOptions)
    (s : Realm W Input) : list (string * bool) :=
  content <$> returned localConfig options s.

(** The package is attributed, under whichever classification. *)
Definition attributes (localConfig : ExpoConfig) (options : PluginOptions)
    (s : Realm W Input) (pkg : string) : Prop :=
  pkg ∈ specifier <$> returned localConfig options s.

(** The allow-listed packages are attributed exactly when they are keys
    of [manifest.dependencies]. *)
Definition allowListedIffManifestKey (localConfig : ExpoConfig)
    (options : PluginOptions) (s : Realm W Input) : Prop :=
  (("expo-insights", true) ∈ contents localConfig options s
     ↔ "expo-insights" ∈ manifestKeys (manifest options))
  ∧ (("expo-atlas", false) ∈ contents localConfig options s
     ↔ "expo-atlas" ∈ manifestKeys (manifest options))
  ∧ (("expo-dev-client", false) ∈ contents localConfig options s
     ↔ "expo-dev-client" ∈ manifestKeys (manifest options)).

(** [@expo/metro-runtime] is attributed exactly when the platforms
    include web and the entry point is not the router's. *)
Definition metroRuntimeIffWebWithoutRouter (localConfig : ExpoConfig)
    (options : PluginOptions) (s : Realm W Input) : Prop :=
  attributes localConfig options s "@expo/metro-runtime"
  ↔ "web" ∈ platformsOf (configOf localConfig)
    ∧ main (manifest options) ≠ Some "expo-router/entry".
End Statements.

(** Two inputs that say the same, whichever objects they are. *)
Definition sameInput (a b : Input) : Prop :=
  type a = type b ∧ specifier a = specifier b ∧ production a = production b.

Definition withPlatforms (p : option (list string)) (c : AppConfig) : AppConfig :=
  {| platforms := p;
     notification := notification c;
     updates := updates c;
     backgroundColor := backgroundColor c;
     userInterfaceStyle := userInterfaceStyle c;
     ios := ios c;
     android := android c;
     androidNavigationBar := androidNavigationBar c;
     plugins := plugins c |}.

Definition withDevDependencies (d : option (gmap string string)) (o : PluginOptions)
  : PluginOptions :=
  {| manifest := {| main := main (manifest o);
                    dependencies := dependencies (manifest o);
                    devDependencies := d |} |}.

Definition emptyConfig : AppConfig :=
  {| platforms := None; notification := None; updates := None;
     backgroundColor := None; userInterfaceStyle := None; ios := None;
     android := None; androidNavigationBar := None; plugins := None |}.

Definition withPlugins (ps : list PluginEntry) (c : AppConfig) : AppConfig :=
  {| platforms := platforms c;
     notification := notification c;
     updates := updates c;
     backgroundColor := backgroundColor c;
     userInterfaceStyle := userInterfaceStyle c;
     ios := ios c;
     android := android c;
     androidNavigationBar := androidNavigationBar c;
     plugins := Some ps |}.

Definition emptyManifest : PackageJson :=
  {| main := None; dependencies := None; devDependencies := None |}.

(** [{ "main": "expo-router/entry", "dependencies": { "expo-router": "*" } }] *)
Definition routerManifest : PackageJson :=
  {| main := Some "expo-router/entry";
     dependencies := Some {[ "expo-router" := "*" ]};
     devDependencies := None |}.

(** [{ "dependencies": { "expo-insights": "*", "expo-atlas": "*" } }] *)
Definition allowListManifest : PackageJson :=
  {| main := Some "index.js";
     dependencies := Some (<[ "expo-insights" := "*" ]> {[ "expo-atlas" := "*" ]});
     devDependencies := Some {[ "expo-dev-client" := "*" ]} |}.

(** A call in a realm with nothing allocated, whose outside is the pair of
    its arguments. *)
Definition start (localConfig : ExpoConfig) (options : PluginOptions)
  : Realm (ExpoConfig * PluginOptions) Input :=
  MkRealm (localConfig, options) 0 [].

End ExpoClaims.

(** ** The statements about the analysis, and sample projects *)

Module AnalyzerClaims.
Import Analyzer.

Section Statements.
Variable resolve : string → string → option string.
Variable files : gmap string SourceFile.
Variable entry : gset string.

(** File [g] imports the module [t] as a namespace and uses it as [u]. *)
Definition usesNamespace (g t : string) (u : NamespaceUse) : Prop :=
  ∃ spec uses, (spec, Namespace uses) ∈ importsOf files g ≫= importEdges
               ∧ resolve g spec = Some t ∧ u ∈ uses.

(** The unused-exports invariant as the specification words it: an
    export of a reachable file is reported iff no reference points to it
    and its file is not an entry, unless entry exports are included. *)
Definition unusedExportsIff (opts : Options) : Prop :=
  ∀ t e, t ∈ resolved resolve files entry → e ∈ exportsOf files t →
    ((t, e) ∈ unusedExports resolve files entry opts
     ↔ referenced (references resolve files entry) t e = false
       ∧ (t ∉ entry ∨ includeEntryExports opts = true)).

(** No import with a literal specifier, in whichever file, resolves to
    [f]. *)
Definition notImported (f : string) : Prop :=
  ∀ g spec b, (spec, b) ∈ importsOf files g ≫= importEdges →
              resolve g spec ≠ Some f.
End Statements.

(** File [g] with one more [import(argument)]. *)
Definition withDynamicImport (g : string) (argument : SpecifierExpr) (b : Binding)
    (files : gmap string SourceFile) : gmap string SourceFile :=
  alter (λ sf, {| imports := imports sf ++ [Dynamic argument b];
                  exports := exports sf |}) g files.

Definition defaults : Options :=
  {| includeEntryExports := false; ignoreTags := [] |}.

Definition plain (n : string) : Export := {| name := n; jsdoc := [] |}.

(** The example of the section "Enumerations", which is scenario 2 of
    the specification with one more export:
    [import * as Fruits from './fruits.js';]
    [import { FruitsEnum } from './fruits.js';]
    [for (const fruit of Object.values(Fruits));] *)
Definition fruitsProject : gmap string SourceFile :=
  <[ "index.js" :=
       {| imports := [ Static "./fruits.js" (Namespace [Enumerate]);
                       Static "./fruits.js" (Named ["FruitsEnum"]) ];
          exports := [] |} ]>
  {[ "fruits.js" :=
       {| imports := [];
          exports := [ plain "apple"; plain "orange"; plain "FruitsEnum" ] |} ]}.

(** [send(Fruits)] in place of the enumeration. *)
Definition sentFruitsProject : gmap string SourceFile :=
  <[ "index.js" :=
       {| imports := [ Static "./fruits.js" (Namespace [Argument]) ];
          exports := [] |} ]>
  {[ "fruits.js" :=
       {| imports := [];
          exports := [ plain "apple"; plain "orange" ] |} ]}.

(** [const p = await import('./entry-' + name + '.ts')] in [index.ts],
    next to a file [entry-a.ts] that nothing else imports. *)
Definition entryA : SpecifierExpr :=
  Concat (Concat (Literal "./entry-") (Identifier "name")) (Literal ".ts").

Definition dynamicProject : gmap string SourceFile :=
  <[ "index.ts" :=
       {| imports := [ Dynamic entryA (Namespace []) ]; exports := [] |} ]>
  {[ "entry-a.ts" := {| imports := []; exports := [ plain "run" ] |} ]}.

(** [index.js] imports [used] from [lib.js], which also exports [api]
    under a [@public] tag. *)
Definition taggedProject : gmap string SourceFile :=
  <[ "index.js" :=
       {| imports := [ Static "./lib.js" (Named ["used"]) ]; exports := [] |} ]>
  {[ "lib.js" :=
       {| imports := [];
          exports := [ plain "used"; plain "unused";
                       {| name := "api"; jsdoc := ["@public"] |} ] |} ]}.

End AnalyzerClaims.

(** ** The objects a call allocates, and how often a package is named *)

Module ExpoObjects.
Import Js Expo.

(** The set holds exactly the objects allocated since [base], in the
    order of their allocation. *)
Definition packed {W} (base : nat) (s : Realm W Input) : Prop :=
  ref <$> inputs s = seq base (length (inputs s))
  ∧ next_ref s = base + length (inputs s).

(** [m] allocates nothing that it does not add to the set. *)
Definition keeps {W A} (m : M W Input A) : Prop :=
  ∀ base s, packed base s → packed base (m s).2.

(** How many of the inputs say [x]. *)
Definition occurrences (x : string * bool) (l : list (string * bool)) : nat :=
  length (filter (λ y, y = x) l).

(** A property that is present and truthy: a non-empty string. *)
Definition nonEmpty (v : option string) : Prop :=
  ∃ s, v = Some s ∧ s ≠ "".

(** The packages the function can attribute as production dependencies,
    and those it attributes as plain dependencies of its own accord. *)
Definition productionPackages : list string :=
  [ "expo-insights"; "expo-updates"; "expo-notifications"; "expo-router";
    "react-native-web"; "react-dom"; "expo-system-ui"; "expo-navigation-bar" ].

Definition plainPackages : list string :=
  [ "expo-atlas"; "expo-dev-client"; "@expo/metro-runtime" ].

End ExpoObjects.

(** ** The expo plugin on a mutable heap *)

Module ExpoHeap.
Import Expo.

(** To say what a call writes, the same function once more, with the
    objects it is handed and the objects it makes as cells of one mutable
    heap: the [localConfig] and the plugin options are cells that exist
    before the call, an [Input] is a cell, and the [Set] is a cell that
    [add] overwrites.  A cell holds the whole value of its object, so any
    mutation of an argument, however deep, would change its cell. *)
Inductive Cell :=
  | ConfigCell (config : ExpoConfig)
  | OptionsCell (options : PluginOptions)
  | InputCell (type specifier : string) (production : bool)
  | SetCell (members : list nat).

Record Store := MkStore {
  cells : gmap nat Cell;
  fresh : nat;            (* the next location to allocate *)
}.

(** A computation on the heap; [None] is a thrown [TypeError], which the
    [async] function turns into a rejected promise. *)
Definition H (A : Type) : Type := Store → option (A * Store).

#[global] Instance H_ret : MRet H := λ A x h, Some (x, h).
#[global] Instance H_bind : MBind H :=
  λ A B f m h, match m h with
               | Some (a, h') => f a h'
               | None => None
               end.

Definition throw {A} : H A := λ _, None.

Definition alloc (c : Cell) : H nat :=
  λ h, Some (fresh h, MkStore (<[fresh h := c]> (cells h)) (S (fresh h))).

Definition load (l : nat) : H Cell :=
  λ h, match cells h !! l with
       | Some c => Some (c, h)
       | None => None
       end.

Definition store (l : nat) (c : Cell) : H unit :=
  λ h, Some (tt, MkStore (<[l := c]> (cells h)) (fresh h)).

(** [for (const x of xs) body(x)] and [if (c) { body }] *)
Fixpoint for_of {A} (xs : list A) (body : A → H unit) : H unit :=
  match xs with
  | [] => mret tt
  | x :: xs' => body x ;; for_of xs' body
  end.

Definition when (c : bool) (body : H unit) : H unit :=
  if c then body else mret tt.

(** Reading the arguments. *)
Definition readConfig (localConfig : nat) : H ExpoConfig :=
  c ← load localConfig;
  match c with
  | ConfigCell config => mret config
  | _ => throw
  end.

Definition readOptions (options : nat) : H PluginOptions :=
  c ← load options;
  match c with
  | OptionsCell o => mret o
  | _ => throw
  end.

(** [toDependency] and [toProductionDependency] return a new object. *)
Definition toDependency (specifier : string) : H nat :=
  alloc (InputCell "dependency" specifier false).

Definition toProductionDependency (specifier : string) : H nat :=
  alloc (InputCell "dependency" specifier true).

(** [set.add(x)] overwrites the set unless it holds [x] already. *)
Definition Set_add (set x : nat) : H unit :=
  c ← load set;
  match c with
  | SetCell members =>
      if bool_decide (x ∈ members) then mret tt
      else store set (SetCell (members ++ [x]))
  | _ => throw
  end.

(** [new Set(xs)] *)
Definition new_Set (xs : list nat) : H nat :=
  set ← alloc (SetCell []);
  for_of xs (Set_add set) ;;
  mret set.

(** [[...set]] *)
Definition spread (set : nat) : H (list nat) :=
  c ← load set;
  match c with
  | SetCell members => mret members
  | _ => throw
  end.

Section GetDependencies.
Variable getPackageNameFromModuleSpecifier : string → option string.

(** [getDependencies(localConfig, { manifest })], the arguments being
    the locations of the two objects; the result is the array of the
    locations of the inputs. *)
Definition getDependencies (localConfig options : nat) : H (list nat) :=
  localConfig ← readConfig localConfig;
  options ← readOptions options;
  let manifest := manifest options in
  let expoConfig :=
    match localConfig with
    | ConfigFunction f => f tt
    | ConfigObject c => c
    end in
  let config :=
    match expoConfig with
    | Wrapped expo => expo
    | Bare config => config
    end in
  let platforms := default ["ios"; "android"] (platforms config) in
  let pluginPackages :=
    default []
      ((λ ps, filter_Boolean
                (map (λ plugin, getPackageNameFromModuleSpecifier (pluginName plugin)) ps))
         <$> plugins config) in
  initial ← mapM toDependency pluginPackages;
  inputs ← new_Set initial;
  let allowedPackages := ["expo-atlas"; "expo-dev-client"] in
  let allowedProductionPackages := ["expo-insights"] in
  let manifestDependencies := Js.Object_keys (default ∅ (dependencies manifest)) in
  for_of allowedPackages (λ pkg,
    when (Js.includes pkg manifestDependencies)
      (x ← toDependency pkg; Set_add inputs x)) ;;
  for_of allowedProductionPackages (λ pkg,
    when (Js.includes pkg manifestDependencies)
      (x ← toProductionDependency pkg; Set_add inputs x)) ;;
  when (negb (bool_decide ((updates config ≫= enabled) = Some false)))
    (x ← toProductionDependency "expo-updates"; Set_add inputs x) ;;
  when (Js.present (notification config))
    (x ← toProductionDependency "expo-notifications"; Set_add inputs x) ;;
  let isExpoRouter := bool_decide (main manifest = Some "expo-router/entry") in
  when isExpoRouter
    (x ← toProductionDependency "expo-router"; Set_add inputs x) ;;
  when (Js.includes "web" platforms)
    ((x ← toProductionDependency "react-native-web"; Set_add inputs x) ;;
     (x ← toProductionDependency "react-dom"; Set_add inputs x) ;;
     when (negb isExpoRouter)
       (x ← toDependency "@expo/metro-runtime"; Set_add inputs x)) ;;
  when ((Js.includes "android" platforms
         && (Js.truthy (userInterfaceStyle config)
             || Js.truthy (android config ≫= android_userInterfaceStyle)))
        || (Js.includes "ios" platforms
            && (Js.truthy (backgroundColor config)
                || Js.truthy (ios config ≫= ios_backgroundColor))))
    (x ← toProductionDependency "expo-system-ui"; Set_add inputs x) ;;
  when (Js.includes "android" platforms && Js.present (androidNavigationBar config))
    (x ← toProductionDependency "expo-navigation-bar"; Set_add inputs x) ;;
  spread inputs.
End GetDependencies.

(** What the object at [l] says, when it is an input. *)
Definition describe (h : Store) (l : nat) : option (string * string * bool) :=
  match cells h !! l with
  | Some (InputCell type specifier production) => Some (type, specifier, production)
  | _ => None
  end.

(** Every object of the heap was allocated. *)
Definition valid (h : Store) : Prop :=
  ∀ l, is_Some (cells h !! l) → l < fresh h.

(** While the call runs: the cells below [base] are those of the heap
    [h0] the call started from; the set and its members were allocated by
    the call; the members are inputs that say [acc]. *)
Definition running (h0 : Store) (base set : nat) (acc : list (string * bool))
    (h : Store) : Prop :=
  (∀ l, l < base → cells h !! l = cells h0 !! l)
  ∧ base ≤ set < fresh h
  ∧ valid h
  ∧ ∃ members,
      cells h !! set = Some (SetCell members)
      ∧ Forall (λ m, base ≤ m < fresh h ∧ m ≠ set) members
      ∧ (λ m, cells h !! m) <$> members
        = (λ d, Some (InputCell "dependency" d.1 d.2)) <$> acc.

(** From a running state [m] succeeds and adds inputs that say [l]. *)
Definition appends {A} (h0 : Store) (base set : nat) (m : H A)
    (l : list (string * bool)) (R : A → Store → Prop) : Prop :=
  ∀ acc h, running h0 base set acc h →
    ∃ a h', m h = Some (a, h') ∧ running h0 base set (acc ++ l) h' ∧ R a h'.

(** A heap with the two arguments and a few other objects. *)
Definition sampleStore (localConfig : ExpoConfig) (options : PluginOptions) : Store :=
  MkStore (<[ 0 := ConfigCell localConfig ]>
           (<[ 1 := OptionsCell options ]>
            {[ 2 := InputCell "dependency" "left-over" false ]})) 3.

End ExpoHeap.

(** ** Facts about the monad and the set operations *)

Module JsFacts.
Import Js Expo ExpoSummary.

Section Rules.
Context {W : Type}.
Implicit Types s : Realm W Input.

Lemma bind_run {A B} (m : M W Input A) (f : A → M W Input B) s :
  (m ≫= f) s = f (m s).1 (m s).2.
Proof. unfold mbind, M_bind. by destruct (m s). Qed.

Lemma has_allocated (x : Input) (set : list Input) :
  Forall (λ i, ref i < ref x) set → has ref x set = false.
Proof.
  induction 1 as [|y set Hy _ IH]; simpl; [done|].
  rewrite IH, orb_false_r. apply Nat.eqb_neq. lia.
Qed.

Lemma has_fresh (x : Input) s :
  allocated s → ref x = next_ref s → has ref x (inputs s) = false.
Proof.
  intros Hs Hx. apply has_allocated. rewrite Hx.
  eapply Forall_impl; [exact Hs|]. by intros i [? _].
Qed.

Lemma adds_consequence {A} (m : M W Input A) l l' (R R' : A → list Input → Prop) :
  adds m l R → l = l' → (∀ a set, R a set → R' a set) → adds m l' R'.
Proof.
  intros Hm <- HR s Hs. destruct (Hm s Hs) as (? & ? & ? & ?). eauto.
Qed.

Lemma adds_mret : adds (W:=W) (mret tt) [] (λ _ _, True).
Proof.
  intros s Hs. simpl. by rewrite app_nil_r.
Qed.

Lemma adds_seq {A B} (m1 : M W Input A) (m2 : M W Input B) l1 l2 R1 R2 :
  adds m1 l1 R1 → adds m2 l2 R2 → adds (m1 ;; m2) (l1 ++ l2) R2.
Proof.
  intros H1 H2 s Hs. rewrite bind_run.
  destruct (H1 s Hs) as (Ha & Hc & Ho & _).
  destruct (H2 _ Ha) as (Ha' & Hc' & Ho' & HR).
  repeat split; [done| |congruence|done].
  by rewrite Hc', Hc, app_assoc.
Qed.

Lemma adds_when (c : bool) (m : M W Input unit) l R :
  adds m l R → adds (when c m) (if c then l else []) (λ _ _, True).
Proof.
  intros Hm. destruct c; simpl.
  - eapply adds_consequence; [exact Hm|done|done].
  - apply adds_mret.
Qed.

Lemma allocated_snoc s (x : Input) :
  allocated s → ref x = next_ref s → type x = "dependency" →
  allocated (MkRealm (outside s) (S (next_ref s)) (inputs s ++ [x])).
Proof.
  unfold allocated; simpl. intros Hs Hx Ht. apply Forall_app. split.
  - eapply Forall_impl; [exact Hs|]. simpl. intros i [? ?]. split; [lia|done].
  - apply Forall_singleton. split; [lia|done].
Qed.

Lemma adds_toDependency (id : string) :
  adds (W:=W) (x ← toDependency id; Set_add ref x) [(id, false)] (λ _ _, True).
Proof.
  intros s Hs. rewrite bind_run. unfold toDependency. rewrite bind_run. simpl.
  rewrite (has_fresh (MkInput (next_ref s) "dependency" id false) s) by done.
  simpl. repeat split; [|by rewrite fmap_app].
  by apply (allocated_snoc s (MkInput (next_ref s) "dependency" id false)).
Qed.

Lemma adds_toProductionDependency (id : string) :
  adds (W:=W) (x ← toProductionDependency id; Set_add ref x) [(id, true)] (λ _ _, True).
Proof.
  intros s Hs. rewrite bind_run. unfold toProductionDependency. rewrite bind_run. simpl.
  rewrite (has_fresh (MkInput (next_ref s) "dependency" id true) s) by done.
  simpl. repeat split; [|by rewrite fmap_app].
  by apply (allocated_snoc s (MkInput (next_ref s) "dependency" id true)).
Qed.

Lemma adds_spread : adds (W:=W) (spread) [] (λ a set, a = set).
Proof.
  intros s Hs. simpl. by rewrite app_nil_r.
Qed.

Lemma toDependency_run (id : string) s :
  toDependency id s
  = (MkInput (next_ref s) "dependency" id false,
     MkRealm (outside s) (S (next_ref s)) (inputs s)).
Proof. reflexivity. Qed.

(** [pluginPackages.map(id => toDependency(id))]: consecutive fresh
    objects, one per name. *)
Lemma mapM_toDependency (pkgs : list string) s :
  consecutive (next_ref s) (mapM toDependency pkgs s).1
  ∧ Forall (λ i, type i = "dependency") (mapM toDependency pkgs s).1
  ∧ content <$> (mapM toDependency pkgs s).1 = (λ id, (id, false)) <$> pkgs
  ∧ (mapM toDependency pkgs s).2
    = MkRealm (outside s) (next_ref s + length pkgs) (inputs s).
Proof.
  revert s. induction pkgs as [|id pkgs IH]; intros s.
  - simpl. split; [done|]. split; [done|]. split; [done|].
    destruct s; simpl. f_equal. lia.
  - cbn [mapM]. rewrite bind_run, toDependency_run. cbn [fst snd].
    rewrite bind_run.
    set (s1 := MkRealm (outside s) (S (next_ref s)) (inputs s)).
    destruct (IH s1) as (Hc & Ht & Hm & Hs).
    change (mret (M:=M W Input) ?x ?t) with (x, t). cbn [fst snd].
    rewrite Hs. cbn [consecutive ref]. rewrite fmap_cons, Hm.
    repeat split; [exact Hc|by constructor|]. subst s1; simpl. f_equal. lia.
Qed.

(** Filling the set from consecutive objects keeps them all. *)
Lemma for_of_Set_add_consecutive (xs : list Input) s lo :
  Forall (λ i, ref i < lo) (inputs s) → consecutive lo xs →
  (for_of xs (Set_add ref) s).2
  = MkRealm (outside s) (next_ref s) (inputs s ++ xs).
Proof.
  revert s lo. induction xs as [|x xs IH]; intros s lo Hs Hxs.
  - simpl. rewrite app_nil_r. by destruct s.
  - destruct Hxs as [Hx Hxs]. cbn [for_of]. rewrite bind_run.
    assert (Hadd : (Set_add ref x s).2
                   = MkRealm (outside s) (next_ref s) (inputs s ++ [x])).
    { unfold Set_add; simpl. rewrite has_allocated; [done|]. by rewrite Hx. }
    rewrite Hadd. erewrite IH; [|simpl|exact Hxs].
    + simpl. by rewrite <- app_assoc.
    + apply Forall_app. split.
      * eapply Forall_impl; [exact Hs|]. simpl. lia.
      * apply Forall_singleton. lia.
Qed.

Lemma consecutive_allocated (xs : list Input) lo :
  consecutive lo xs → Forall (λ i, ref i < lo + length xs) xs.
Proof.
  revert lo. induction xs as [|x xs IH]; intros lo; [done|].
  intros [Hx Hxs]. constructor; [simpl; lia|].
  eapply Forall_impl; [exact (IH _ Hxs)|]. simpl. lia.
Qed.

(** [new Set(pluginPackages.map(id => toDependency(id)))] *)
Lemma initial_set (pkgs : list string) s :
  let s' := ((initial ← mapM toDependency pkgs; new_Set ref initial) s).2 in
  allocated s'
  ∧ content <$> inputs s' = (λ id, (id, false)) <$> pkgs
  ∧ outside s' = outside s.
Proof.
  simpl. rewrite bind_run.
  destruct (mapM_toDependency pkgs s) as (Hc & Ht & Hm & Hs).
  unfold new_Set. rewrite bind_run. cbn [fst snd].
  erewrite for_of_Set_add_consecutive; [|simpl; constructor|exact Hc].
  rewrite Hs. simpl. unfold allocated; simpl.
  split; [|by split].
  assert (Hlen : length (mapM toDependency pkgs s).1 = length pkgs).
  { by rewrite <- (length_fmap content), Hm, length_fmap. }
  rewrite <- Hlen. apply Forall_and. split; [|exact Ht].
  by apply consecutive_allocated.
Qed.
End Rules.
End JsFacts.

(** ** The expo plugin: what [getDependencies] returns *)

Module ExpoFacts.
Import Js Expo ExpoSummary JsFacts.

Ltac adds_step :=
  first
    [ apply adds_toDependency
    | apply adds_toProductionDependency
    | apply adds_spread
    | apply adds_mret
    | eapply adds_when
    | eapply adds_seq ].

Section Contents.
Context {W : Type}.
Variable getPackageName : string → option string.
Implicit Types s : Realm W Input.

(** The returned array holds, in order, inputs of the contents
    [attributed]; it is the final value of the set; nothing outside the
    call's own objects has changed. *)
Lemma getDependencies_contents localConfig options s :
  content <$> (getDependencies getPackageName localConfig options s).1
    = attributed getPackageName localConfig options
  ∧ outside (getDependencies getPackageName localConfig options s).2 = outside s
  ∧ (getDependencies getPackageName localConfig options s).1
    = inputs (getDependencies getPackageName localConfig options s).2
  ∧ Forall (λ i, type i = "dependency")
      (getDependencies getPackageName localConfig options s).1.
Proof.
  unfold getDependencies. cbv zeta.
  fold (configOf localConfig).
  fold (pluginPackages getPackageName (configOf localConfig)).
  set (pkgs := pluginPackages getPackageName (configOf localConfig)).
  destruct (initial_set pkgs s) as (Ha & Hc & Ho). cbv zeta in Ha, Hc, Ho.
  rewrite bind_run in Ha, Hc, Ho.
  rewrite bind_run. rewrite bind_run.
  set (s1 := (new_Set ref (mapM toDependency pkgs s).1 (mapM toDependency pkgs s).2).2) in *.
  match goal with |- context [ ?rest s1 ] =>
    assert (Hrest : adds rest
      (drop (length pkgs) (attributed getPackageName localConfig options))
      (λ a set, a = set)) end.
  { eapply adds_consequence; [cbn [for_of]; repeat adds_step| |done].
    unfold attributed. cbv zeta. fold pkgs.
    rewrite drop_app_length' by (by rewrite length_fmap).
    unfold one, platformsOf, manifestKeys, isExpoRouter.
    destruct (includes "web" _), (bool_decide (main _ = _));
      cbn [negb andb]; rewrite ?app_nil_r, <- ?app_assoc; reflexivity. }
  destruct (Hrest s1 Ha) as (Ha' & Hc' & Ho' & Hr).
  split; [|split; [congruence|split; [exact Hr|]]];
    [|rewrite Hr; eapply Forall_impl; [exact Ha'|]; by intros i [_ ?]].
  rewrite Hr, Hc', Hc. unfold attributed. cbv zeta. fold pkgs.
  by rewrite drop_app_length' by (by rewrite length_fmap).
Qed.
End Contents.
End ExpoFacts.

(** ** Membership in the returned array *)

Module ExpoMembership.
Import Js Expo ExpoSummary ExpoClaims JsFacts ExpoFacts.

Lemma elem_of_one (x : string * bool) (c : bool) (pkg : string) (prod : bool) :
  x ∈ one c pkg prod ↔ c = true ∧ x = (pkg, prod).
Proof.
  destruct c; simpl.
  - rewrite list_elem_of_singleton. naive_solver.
  - split; [inversion 1|by intros [? _]].
Qed.

Lemma includes_spec (x : string) (xs : list string) :
  includes x xs = true ↔ x ∈ xs.
Proof. unfold includes. apply bool_decide_eq_true. Qed.

Lemma manifestKeys_spec (m : PackageJson) (k : string) :
  k ∈ manifestKeys m ↔ ∃ deps, dependencies m = Some deps ∧ is_Some (deps !! k).
Proof.
  unfold manifestKeys, Object_keys. rewrite list_elem_of_fmap. split.
  - intros ([k' v] & -> & Hkv). apply elem_of_map_to_list in Hkv.
    destruct (dependencies m) as [deps|]; simpl in *.
    + exists deps. eauto.
    + by rewrite lookup_empty in Hkv.
  - intros (deps & -> & v & Hv). exists (k, v). split; [done|].
    by apply elem_of_map_to_list.
Qed.

Section Membership.
Context {W : Type}.
Variable getPackageName : string → option string.
Implicit Types s : Realm W Input.

Lemma contents_attributed localConfig options s :
  contents getPackageName localConfig options s
  = attributed getPackageName localConfig options.
Proof. apply getDependencies_contents. Qed.

Lemma contents_production localConfig options s (pkg : string) :
  (pkg, true) ∈ contents getPackageName localConfig options s ↔
    let config := configOf localConfig in
    let m := manifest options in
    (pkg = "expo-insights" ∧ "expo-insights" ∈ manifestKeys m)
    ∨ (pkg = "expo-updates" ∧ (updates config ≫= enabled) ≠ Some false)
    ∨ (pkg = "expo-notifications" ∧ is_Some (notification config))
    ∨ (pkg = "expo-router" ∧ main m = Some "expo-router/entry")
    ∨ (pkg = "react-native-web" ∧ "web" ∈ platformsOf config)
    ∨ (pkg = "react-dom" ∧ "web" ∈ platformsOf config)
    ∨ (pkg = "expo-system-ui"
       ∧ (includes "android" (platformsOf config)
          && (truthy (userInterfaceStyle config)
              || truthy (android config ≫= android_userInterfaceStyle))
          || includes "ios" (platformsOf config)
             && (truthy (backgroundColor config)
                 || truthy (ios config ≫= ios_backgroundColor))) = true)
    ∨ (pkg = "expo-navigation-bar"
       ∧ "android" ∈ platformsOf config
       ∧ is_Some (androidNavigationBar config)).
Proof.
  rewrite contents_attributed. unfold attributed. cbv zeta.
  rewrite !elem_of_app, !elem_of_one, list_elem_of_fmap.
  unfold isExpoRouter.
  rewrite !andb_true_iff, !negb_true_iff, !includes_spec,
    !bool_decide_eq_true, !bool_decide_eq_false.
  assert (Hp : ∀ A (o : option A), present o = true ↔ is_Some o).
  { intros A [x|]; simpl; [split; eauto|split; [done|by intros [? ?]]]. }
  rewrite !Hp. naive_solver.
Qed.

Lemma pluginPackages_spec (config : AppConfig) (name : string) :
  name ∈ pluginPackages getPackageName config ↔
    ∃ ps plugin, plugins config = Some ps ∧ plugin ∈ ps
                 ∧ getPackageName (pluginName plugin) = Some name ∧ name ≠ "".
Proof.
  unfold pluginPackages, filter_Boolean.
  destruct (plugins config) as [ps|]; simpl.
  - rewrite list_elem_of_omap. split.
    + intros (o & Ho & Hname). apply list_elem_of_fmap in Ho as (plugin & -> & Hin).
      destruct (getPackageName (pluginName plugin)) as [n|] eqn:Hn; [|done].
      destruct (String.eqb n "") eqn:He; [done|].
      apply String.eqb_neq in He. simplify_eq. eauto 10.
    + intros (ps' & plugin & [= <-] & Hin & Hn & Hne).
      exists (Some name). split.
      * apply list_elem_of_fmap. eauto.
      * apply String.eqb_neq in Hne. by rewrite Hne.
  - split; [inversion 1|]. by intros (? & ? & ? & _).
Qed.

Lemma contents_plain localConfig options s (pkg : string) :
  (pkg, false) ∈ contents getPackageName localConfig options s ↔
    let config := configOf localConfig in
    let m := manifest options in
    pkg ∈ pluginPackages getPackageName config
    ∨ (pkg = "expo-atlas" ∧ "expo-atlas" ∈ manifestKeys m)
    ∨ (pkg = "expo-dev-client" ∧ "expo-dev-client" ∈ manifestKeys m)
    ∨ (pkg = "@expo/metro-runtime"
       ∧ "web" ∈ platformsOf config
       ∧ main m ≠ Some "expo-router/entry").
Proof.
  rewrite contents_attributed. unfold attributed. cbv zeta.
  rewrite !elem_of_app, !elem_of_one, list_elem_of_fmap.
  unfold isExpoRouter.
  rewrite !andb_true_iff, !negb_true_iff, !includes_spec, !bool_decide_eq_false.
  naive_solver.
Qed.

Lemma attributes_contents localConfig options s (pkg : string) :
  attributes getPackageName localConfig options s pkg ↔
    (pkg, true) ∈ contents getPackageName localConfig options s
    ∨ (pkg, false) ∈ contents getPackageName localConfig options s.
Proof.
  unfold attributes, contents. rewrite !list_elem_of_fmap. split.
  - intros (i & -> & Hi). destruct (production i) eqn:Hp; [left|right];
      exists i; (split; [unfold content; by rewrite Hp|done]).
  - intros [(i & Hc & Hi)|(i & Hc & Hi)]; exists i;
      (split; [by inversion Hc|done]).
Qed.
End Membership.
End ExpoMembership.

(** ** The attribution table *)

Module AttributionFacts.
Import Attribution.

Lemma attribute_records (plugin pkg : string) (table : gmap string Entry) :
  recorded plugin pkg (attribute plugin table pkg).
Proof.
  unfold recorded, attribute. eexists. rewrite lookup_insert_eq.
  split; [done|]. simpl. set_solver.
Qed.

Lemma attribute_keeps (plugin pkg name : string) (table : gmap string Entry) :
  recorded plugin name table → recorded plugin name (attribute plugin table pkg).
Proof.
  intros (e & He & Hin). destruct (decide (pkg = name)) as [->|Hne].
  - apply attribute_records.
  - exists e. unfold attribute. by rewrite lookup_insert_ne.
Qed.

Lemma attributeAll_keeps (plugin name : string) (pkgs : list string)
    (table : gmap string Entry) :
  recorded plugin name table → recorded plugin name (attributeAll plugin pkgs table).
Proof.
  unfold attributeAll. revert table.
  induction pkgs as [|pkg pkgs IH]; intros table H; simpl; [done|].
  apply IH. by apply attribute_keeps.
Qed.

Lemma attributeAll_records (plugin name : string) (pkgs : list string)
    (table : gmap string Entry) :
  name ∈ pkgs → recorded plugin name (attributeAll plugin pkgs table).
Proof.
  unfold attributeAll. revert table.
  induction pkgs as [|pkg pkgs IH]; intros table Hin; [by inversion Hin|].
  simpl. apply elem_of_cons in Hin as [->|Hin].
  - apply (attributeAll_keeps plugin pkg pkgs). apply attribute_records.
  - by apply IH.
Qed.

Lemma recorded_used (plugin name : string) (table : gmap string Entry) :
  recorded plugin name table →
  ∃ e, table !! name = Some e ∧ referenced_by_plugin e ≠ ∅ ∧ unused e = false.
Proof.
  intros (e & He & Hin). exists e. split; [done|].
  assert (Hne : referenced_by_plugin e ≠ ∅) by set_solver.
  split; [done|]. unfold unused.
  rewrite (bool_decide_eq_false_2 (referenced_by_plugin e = ∅)) by done.
  by rewrite andb_false_r.
Qed.

Lemma recorded_not_reported (plugin name : string) (ignored : gset string)
    (table : gmap string Entry) :
  recorded plugin name table → name ∉ unusedDependencies ignored table.
Proof.
  intros Hrec Hin. apply recorded_used in Hrec as (e & He & _ & Hu).
  unfold unusedDependencies in Hin.
  apply list_elem_of_fmap in Hin as ([k e'] & -> & Hin).
  apply list_elem_of_filter in Hin as [(_ & Hu' & _) Hin].
  apply elem_of_map_to_list in Hin. simpl in *. congruence.
Qed.

End AttributionFacts.

(** ** The expo plugin: the properties *)

Import Js Expo ExpoSummary ExpoClaims.
Import JsFacts ExpoFacts ExpoMembership AttributionFacts.

Section ExpoProperties.
Context {W : Type}.
Variable getPackageName : string → option string.
Implicit Types s : Realm W Input.

(** C1: when the manifest's [main] is ["expo-router/entry"], the returned
    inputs contain expo-router as a production dependency, whatever the
    config and whatever the sources import (the function is not given the
    sources). *)
Theorem expo_router_entry_is_production localConfig options s :
  main (manifest options) = Some "expo-router/entry" →
  ("expo-router", true) ∈ contents getPackageName localConfig options s.
Proof.
  intros Hmain. apply contents_production. cbv zeta. tauto.
Qed.

(** Two calls on the same [localConfig] and manifest return arrays of
    inputs that say the same, one by one, whatever was allocated before
    each call. *)
Theorem getDependencies_deterministic_and_pure localConfig options s1 s2 :
  Forall2 sameInput (returned getPackageName localConfig options s1)
                    (returned getPackageName localConfig options s2)
  ∧ outside (getDependencies getPackageName localConfig options s1).2 = outside s1
  ∧ outside (getDependencies getPackageName localConfig options s2).2 = outside s2.
Proof.
  destruct (getDependencies_contents getPackageName localConfig options s1)
    as (Hc1 & Ho1 & _ & Ht1).
  destruct (getDependencies_contents getPackageName localConfig options s2)
    as (Hc2 & Ho2 & _ & Ht2).
  split; [|by split].
  unfold returned. rewrite <- Hc2 in Hc1. clear Hc2 Ho1 Ho2.
  revert Hc1 Ht1 Ht2.
  generalize (getDependencies getPackageName localConfig options s1).1.
  generalize (getDependencies getPackageName localConfig options s2).1.
  intros l2 l1. revert l2.
  induction l1 as [|a l1 IH]; intros [|b l2] Hc Ht1 Ht2; try done.
  apply Forall_cons in Ht1 as [Ha Ht1]. apply Forall_cons in Ht2 as [Hb Ht2].
  rewrite !fmap_cons in Hc.
  assert (Hab : content a = content b) by congruence.
  assert (Htl : content <$> l1 = content <$> l2) by congruence.
  constructor; [|by apply IH].
  unfold sameInput. unfold content in Hab.
  assert (Hs : specifier a = specifier b) by congruence.
  assert (Hp : production a = production b) by congruence.
  by rewrite Ha, Hb.
Qed.

(** C6: for every entry of [config.plugins], a string or an array whose
    first element is the specifier, the package name derived from the
    specifier is among the attributed dependencies; once the returned inputs are
    entered in the attribution table, the package's referenced-by-plugin
    set is not empty, so it is not unused and the unused-dependencies
    report does not list it. *)
Theorem plugin_entries_are_attributed localConfig options s
    (entries : list PluginEntry) (moduleSpecifier name : string) :
  plugins (configOf localConfig) = Some entries →
  PluginName moduleSpecifier ∈ entries
  ∨ (∃ props, PluginTuple moduleSpecifier props ∈ entries) →
  getPackageName moduleSpecifier = Some name →
  name ≠ "" →
  (name, false) ∈ contents getPackageName localConfig options s
  ∧ attributes getPackageName localConfig options s name
  ∧ ∀ (alwaysIgnored : gset string) (table : gmap string Attribution.Entry),
      let table' :=
        Attribution.attributeAll "expo"
          (specifier <$> returned getPackageName localConfig options s) table in
      (∃ e, table' !! name = Some e
            ∧ Attribution.referenced_by_plugin e ≠ ∅
            ∧ Attribution.unused e = false)
      ∧ name ∉ Attribution.unusedDependencies alwaysIgnored table'.
Proof.
  intros Hps Hin Hname Hne.
  assert (Hc : (name, false) ∈ contents getPackageName localConfig options s).
  { apply contents_plain. left. apply pluginPackages_spec.
    destruct Hin as [Hin|[props Hin]].
    - exists entries, (PluginName moduleSpecifier). eauto.
    - exists entries, (PluginTuple moduleSpecifier props). eauto. }
  assert (Ha : attributes getPackageName localConfig options s name).
  { apply attributes_contents. by right. }
  split; [done|]. split; [done|]. intros alwaysIgnored table table'.
  assert (Hrec : Attribution.recorded "expo" name table').
  { by apply attributeAll_records. }
  split; [by apply (recorded_used "expo")|by apply (recorded_not_reported "expo")].
Qed.

(** C7, as amended: expo-insights is attributed as a production
    dependency exactly when it is a key of [manifest.dependencies];
    expo-atlas and expo-dev-client are attributed as plain dependencies
    exactly when they are keys of [manifest.dependencies] or
    [config.plugins] names them; [manifest.devDependencies] is not
    looked at. *)
Theorem allow_listed_packages localConfig options s :
  (("expo-insights", true) ∈ contents getPackageName localConfig options s
     ↔ "expo-insights" ∈ manifestKeys (manifest options))
  ∧ (∀ pkg, pkg = "expo-atlas" ∨ pkg = "expo-dev-client" →
       ((pkg, false) ∈ contents getPackageName localConfig options s
          ↔ pkg ∈ manifestKeys (manifest options)
            ∨ pkg ∈ pluginPackages getPackageName (configOf localConfig)))
  ∧ (∀ dev, getDependencies getPackageName localConfig
              (withDevDependencies dev options) s
            = getDependencies getPackageName localConfig options s).
Proof.
  split; [|split].
  - rewrite contents_production. cbv zeta. naive_solver.
  - intros pkg Hpkg. rewrite contents_plain. cbv zeta. naive_solver.
  - intros dev. reflexivity.
Qed.

(** C8: a config without [platforms] is treated as one whose platforms
    are [['ios', 'android']]; react-native-web and react-dom are
    attributed as production dependencies exactly when the platforms,
    after the default, include ['web']. *)
Theorem platforms_default localConfig options s :
  (∀ localConfig',
      platforms (configOf localConfig) = None →
      configOf localConfig'
        = withPlatforms (Some ["ios"; "android"]) (configOf localConfig) →
      getDependencies getPackageName localConfig' options s
      = getDependencies getPackageName localConfig options s)
  ∧ (("react-native-web", true) ∈ contents getPackageName localConfig options s
       ↔ "web" ∈ default ["ios"; "android"] (platforms (configOf localConfig)))
  ∧ (("react-dom", true) ∈ contents getPackageName localConfig options s
       ↔ "web" ∈ default ["ios"; "android"] (platforms (configOf localConfig))).
Proof.
  split; [|split].
  - intros localConfig' Hnone Heq.
    unfold getDependencies. cbv zeta.
    fold (configOf localConfig'). fold (configOf localConfig).
    rewrite Heq. unfold withPlatforms. simpl. by rewrite Hnone.
  - rewrite contents_production. cbv zeta. unfold platformsOf. naive_solver.
  - rewrite contents_production. cbv zeta. unfold platformsOf. naive_solver.
Qed.

(** C9: expo-updates is attributed as a production dependency exactly
    when [config.updates?.enabled] is not [false], so also when [updates]
    is absent or [enabled] is undefined; when expo-updates is not
    attributed at all, [updates.enabled] is [false]. *)
Theorem expo_updates_unless_disabled localConfig options s :
  (("expo-updates", true) ∈ contents getPackageName localConfig options s
     ↔ (updates (configOf localConfig) ≫= enabled) ≠ Some false)
  ∧ (updates (configOf localConfig) = None →
       ("expo-updates", true) ∈ contents getPackageName localConfig options s)
  ∧ (∀ u, updates (configOf localConfig) = Some u → enabled u = None →
       ("expo-updates", true) ∈ contents getPackageName localConfig options s)
  ∧ (¬ attributes getPackageName localConfig options s "expo-updates" →
       ∃ u, updates (configOf localConfig) = Some u ∧ enabled u = Some false).
Proof.
  assert (Hiff : ("expo-updates", true) ∈ contents getPackageName localConfig options s
                 ↔ (updates (configOf localConfig) ≫= enabled) ≠ Some false).
  { rewrite contents_production. cbv zeta. naive_solver. }
  split; [exact Hiff|]. split; [|split].
  - intros Hnone. apply Hiff. by rewrite Hnone.
  - intros u Hu He. apply Hiff. rewrite Hu. simpl. by rewrite He.
  - intros Hnot.
    destruct (updates (configOf localConfig)) as [u|] eqn:Hu.
    + exists u. split; [done|].
      destruct (enabled u) as [[|]|] eqn:He; [| done |];
        (exfalso; apply Hnot, attributes_contents; left; apply Hiff;
         simpl; by rewrite He).
    + exfalso. apply Hnot, attributes_contents. left. by apply Hiff.
Qed.

(** C10, as amended: [@expo/metro-runtime] is attributed exactly when
    the platforms, after the default, include ['web'] and [main] is not
    ['expo-router/entry'], or [config.plugins] names it; with both the
    web platform and the router's entry point, expo-router,
    react-native-web and react-dom are attributed as production
    dependencies and [@expo/metro-runtime] only if [config.plugins]
    names it. *)
Theorem metro_runtime localConfig options s :
  (attributes getPackageName localConfig options s "@expo/metro-runtime"
     ↔ ("web" ∈ platformsOf (configOf localConfig)
        ∧ main (manifest options) ≠ Some "expo-router/entry")
       ∨ "@expo/metro-runtime"
           ∈ pluginPackages getPackageName (configOf localConfig))
  ∧ ("web" ∈ platformsOf (configOf localConfig) →
     main (manifest options) = Some "expo-router/entry" →
       ("expo-router", true) ∈ contents getPackageName localConfig options s
       ∧ ("react-native-web", true) ∈ contents getPackageName localConfig options s
       ∧ ("react-dom", true) ∈ contents getPackageName localConfig options s
       ∧ (attributes getPackageName localConfig options s "@expo/metro-runtime"
            ↔ "@expo/metro-runtime"
                ∈ pluginPackages getPackageName (configOf localConfig))).
Proof.
  assert (Hiff : attributes getPackageName localConfig options s "@expo/metro-runtime"
     ↔ ("web" ∈ platformsOf (configOf localConfig)
        ∧ main (manifest options) ≠ Some "expo-router/entry")
       ∨ "@expo/metro-runtime"
           ∈ pluginPackages getPackageName (configOf localConfig)).
  { rewrite attributes_contents, contents_production, contents_plain.
    cbv zeta. naive_solver. }
  split; [exact Hiff|]. intros Hweb Hmain.
  rewrite !contents_production. cbv zeta.
  split; [tauto|]. split; [tauto|]. split; [tauto|].
  rewrite Hiff. naive_solver.
Qed.
End ExpoProperties.

(** ** The analysis: edges, the worklist and the reports *)

Module AnalyzerFacts.
Import Analyzer AnalyzerClaims.

Section Facts.
Variable resolve : string → string → option string.
Variable files : gmap string SourceFile.
Variable entry : gset string.

Lemma edges_spec (g t : string) (b : Binding) :
  (t, b) ∈ edges resolve files g ↔
    ∃ spec, (spec, b) ∈ importsOf files g ≫= importEdges
            ∧ resolve g spec = Some t.
Proof.
  unfold edges. rewrite list_elem_of_omap. split.
  - intros ([spec b'] & Hin & Heq). simpl in Heq.
    destruct (resolve g spec) as [t'|] eqn:Hr; [|done].
    simpl in Heq. simplify_eq. eauto.
  - intros (spec & Hin & Hr). exists (spec, b). split; [done|].
    simpl. by rewrite Hr.
Qed.

(** A file the worklist reaches was there at the start or is the target
    of an edge. *)
Lemma traverse_origin (fuel : nat) (worklist : list string)
    (reached : gset string) (x : string) :
  x ∈ traverse resolve files fuel worklist reached →
  x ∈ reached ∨ x ∈ worklist ∨ ∃ g b, (x, b) ∈ edges resolve files g.
Proof.
  revert worklist reached.
  induction fuel as [|fuel IH]; intros worklist reached; simpl.
  - destruct worklist; auto.
  - destruct worklist as [|f rest]; [auto|].
    destruct (decide (f ∈ reached)) as [Hf|Hf]; intros Hx.
    + destruct (IH _ _ Hx) as [?|[?|?]]; [by left| |by right; right].
      right; left. by right.
    + destruct (IH _ _ Hx) as [Hin|[Hin|?]]; [| |by right; right].
      * apply elem_of_union in Hin as [->%elem_of_singleton|?]; [|by left].
        right; left. by left.
      * apply elem_of_app in Hin as [?|Hin]; [right; left; by right|].
        apply list_elem_of_fmap in Hin as ([t b] & -> & Hin).
        right; right. eauto.
Qed.

Lemma resolved_origin (x : string) :
  x ∈ resolved resolve files entry →
  x ∈ entry ∨ ∃ g b, (x, b) ∈ edges resolve files g.
Proof.
  intros Hx. apply traverse_origin in Hx as [Hx|[Hx|Hx]].
  - by apply not_elem_of_empty in Hx.
  - left. by apply elem_of_elements in Hx.
  - by right.
Qed.

Lemma edges_outside_project (g : string) :
  g ∉ dom files → edges resolve files g = [].
Proof.
  intros Hg. apply not_elem_of_dom in Hg.
  unfold edges, importsOf. by rewrite Hg.
Qed.

(** Processing a file moves its edges from [pending] to the worklist. *)
Lemma pending_processed (f : string) (reached : gset string) :
  f ∉ reached →
  pending resolve files reached
  = length (edges resolve files f) + pending resolve files ({[f]} ∪ reached).
Proof.
  intros Hf. unfold pending. destruct (decide (f ∈ dom files)) as [Hd|Hd].
  - assert (Hsplit : dom files ∖ reached
                     = {[f]} ∪ dom files ∖ ({[f]} ∪ reached)).
    { apply set_eq. intros x. destruct (decide (x = f)); set_solver. }
    rewrite Hsplit at 1.
    rewrite elements_union_singleton by set_solver. done.
  - rewrite edges_outside_project by done. simpl.
    f_equal. f_equal. set_solver.
Qed.

(** With fuel for every pending step the worklist empties: the result
    holds what was reached and what was queued, and is closed under the
    import edges. *)
Lemma traverse_closed (fuel : nat) (worklist : list string) (reached : gset string) :
  (length worklist + pending resolve files reached ≤ fuel)%nat →
  (∀ g t b, g ∈ reached → (t, b) ∈ edges resolve files g →
            t ∈ reached ∨ t ∈ worklist) →
  let result := traverse resolve files fuel worklist reached in
  reached ⊆ result
  ∧ (∀ x, x ∈ worklist → x ∈ result)
  ∧ (∀ g t b, g ∈ result → (t, b) ∈ edges resolve files g → t ∈ result).
Proof.
  revert worklist reached.
  induction fuel as [|fuel IH]; intros worklist reached Hfuel Hinv.
  - destruct worklist as [|f rest]; [|simpl in Hfuel; lia]. simpl.
    split; [done|]. split; [by intros x ?%elem_of_nil|].
    intros g t b Hg Ht. destruct (Hinv g t b Hg Ht) as [?|?%elem_of_nil]; done.
  - destruct worklist as [|f rest].
    { simpl. split; [done|]. split; [by intros x ?%elem_of_nil|].
      intros g t b Hg Ht. destruct (Hinv g t b Hg Ht) as [?|?%elem_of_nil]; done. }
    simpl. destruct (decide (f ∈ reached)) as [Hf|Hf].
    + destruct (IH rest reached) as (Hsub & Hwl & Hclosed).
      * simpl in Hfuel. lia.
      * intros g t b Hg Ht. destruct (Hinv g t b Hg Ht) as [?|Hin]; [by left|].
        apply elem_of_cons in Hin as [->|?]; [by left|by right].
      * split; [done|]. split; [|done].
        intros x [->|?]%elem_of_cons; [by apply Hsub|by apply Hwl].
    + destruct (IH (rest ++ (edges resolve files f).*1) ({[f]} ∪ reached))
        as (Hsub & Hwl & Hclosed).
      * rewrite (pending_processed f reached) in Hfuel by done.
        rewrite length_app, length_fmap. simpl in Hfuel. lia.
      * intros g t b Hg Ht. apply elem_of_union in Hg as [->%elem_of_singleton|Hg].
        -- right. apply elem_of_app. right.
           apply list_elem_of_fmap. by exists (t, b).
        -- destruct (Hinv g t b Hg Ht) as [?|Hin]; [left; set_solver|].
           apply elem_of_cons in Hin as [->|?]; [left; set_solver|].
           right. apply elem_of_app. by left.
      * split; [set_solver|]. split; [|done].
        intros x [->|?]%elem_of_cons; [apply Hsub; set_solver|].
        apply Hwl, elem_of_app. by left.
Qed.

(** Invariant 1 of the specification: the entries are resolved, and so is
    the target of every edge of a resolved file. *)
Lemma resolved_closed :
  entry ⊆ resolved resolve files entry
  ∧ (∀ g t b, g ∈ resolved resolve files entry →
              (t, b) ∈ edges resolve files g → t ∈ resolved resolve files entry).
Proof.
  destruct (traverse_closed (budget resolve files entry) (elements entry) ∅)
    as (_ & Hwl & Hclosed).
  - done.
  - intros g t b Hg. by apply not_elem_of_empty in Hg.
  - split; [|exact Hclosed].
    intros x Hx. by apply Hwl, elem_of_elements.
Qed.

Lemma traverse_reachable (fuel : nat) (worklist : list string)
    (reached : gset string) (x : string) :
  (∀ y, y ∈ worklist → Reachable resolve files entry y) →
  (∀ y, y ∈ reached → Reachable resolve files entry y) →
  x ∈ traverse resolve files fuel worklist reached →
  Reachable resolve files entry x.
Proof.
  revert worklist reached.
  induction fuel as [|fuel IH]; intros worklist reached Hwl Hr; simpl.
  - destruct worklist; auto.
  - destruct worklist as [|f rest]; [auto|].
    assert (Hf : Reachable resolve files entry f) by (apply Hwl; by left).
    destruct (decide (f ∈ reached)).
    + apply IH; [|done]. intros y ?. apply Hwl. by right.
    + apply IH.
      * intros y [?|Hy]%elem_of_app; [apply Hwl; by right|].
        apply list_elem_of_fmap in Hy as ([t b] & -> & Hy).
        by apply (reachable_import _ _ _ f t b).
      * intros y [->%elem_of_singleton|?]%elem_of_union; auto.
Qed.

(** The worklist computes the transitive closure. *)
Lemma resolved_spec (x : string) :
  x ∈ resolved resolve files entry ↔ Reachable resolve files entry x.
Proof.
  split.
  - apply traverse_reachable.
    + intros y Hy%elem_of_elements. by constructor.
    + intros y Hy. by apply not_elem_of_empty in Hy.
  - destruct resolved_closed as [Hentry Hclosed].
    induction 1 as [f Hf|g t b _ IH Hedge]; [by apply Hentry|].
    by apply (Hclosed g t b).
Qed.

Lemma references_spec (t : string) (m : Mark) :
  (t, m) ∈ references resolve files entry ↔
    ∃ g b, g ∈ resolved resolve files entry
           ∧ (t, b) ∈ edges resolve files g ∧ m ∈ bindingMarks b.
Proof.
  unfold references. rewrite list_elem_of_bind. split.
  - intros (g & Hin & Hg). apply elem_of_elements in Hg.
    apply list_elem_of_bind in Hin as ([t' b] & Hin & Hb).
    apply list_elem_of_fmap in Hin as (m' & Heq & Hm). simpl in Heq.
    simplify_eq. eauto.
  - intros (g & b & Hg & Hb & Hm). exists g. split; [|by apply elem_of_elements].
    apply list_elem_of_bind. exists (t, b). split; [|done].
    apply list_elem_of_fmap. eauto.
Qed.

Lemma unusedExports_spec (opts : Options) (t : string) (e : Export) :
  (t, e) ∈ unusedExports resolve files entry opts ↔
    t ∈ resolved resolve files entry
    ∧ e ∈ exportsOf files t
    ∧ reported entry opts (references resolve files entry) t e = true.
Proof.
  unfold unusedExports. cbv zeta. rewrite list_elem_of_bind. split.
  - intros (t' & Hin & Ht). apply elem_of_elements in Ht.
    apply list_elem_of_fmap in Hin as (e' & Heq & He). simplify_eq.
    apply list_elem_of_filter in He as [? ?]. done.
  - intros (Ht & He & Hr). exists t. split; [|by apply elem_of_elements].
    apply list_elem_of_fmap. exists e. split; [done|].
    by apply list_elem_of_filter.
Qed.

End Facts.

Lemma reported_spec (entry : gset string) (opts : Options)
    (refs : list (string * Mark)) (t : string) (e : Export) :
  reported entry opts refs t e = true ↔
    referenced refs t e = false
    ∧ suppressed opts e = false
    ∧ (t ∉ entry ∨ includeEntryExports opts = true).
Proof.
  unfold reported.
  rewrite !andb_true_iff, !negb_true_iff, orb_true_iff, negb_true_iff,
    bool_decide_eq_false.
  tauto.
Qed.

(** A dynamic specifier changes no edge. *)
Lemma edges_withDynamicImport (resolve : string → string → option string)
    (files : gmap string SourceFile) (g : string) (argument : SpecifierExpr)
    (b : Binding) (f : string) :
  isLiteral argument = false →
  edges resolve (withDynamicImport g argument b files) f = edges resolve files f.
Proof.
  intros Hlit. unfold edges. f_equal.
  unfold importsOf, withDynamicImport.
  destruct (decide (g = f)) as [->|Hne].
  - rewrite lookup_alter_eq. destruct (files !! f) as [sf|]; simpl; [|done].
    rewrite bind_app, bind_singleton.
    destruct argument; simpl in *; try done; by rewrite app_nil_r.
  - by rewrite lookup_alter_ne.
Qed.

Lemma budget_ext (resolve : string → string → option string)
    (files files' : gmap string SourceFile) (entry : gset string) :
  dom files' = dom files →
  (∀ f, edges resolve files' f = edges resolve files f) →
  budget resolve files' entry = budget resolve files entry.
Proof.
  intros Hdom Hedges. unfold budget, pending. rewrite Hdom. f_equal.
  induction (elements (dom files ∖ ∅)) as [|g l IH]; [done|].
  simpl. by rewrite Hedges, IH.
Qed.

Lemma traverse_ext (resolve : string → string → option string)
    (files files' : gmap string SourceFile) :
  (∀ f, edges resolve files' f = edges resolve files f) →
  ∀ fuel worklist reached,
    traverse resolve files' fuel worklist reached
    = traverse resolve files fuel worklist reached.
Proof.
  intros Hedges. induction fuel as [|fuel IH]; intros worklist reached; [done|].
  simpl. destruct worklist as [|f rest]; [done|].
  destruct (decide (f ∈ reached)); [apply IH|]. rewrite Hedges. apply IH.
Qed.

End AnalyzerFacts.

(** ** The analysis: the properties *)

Import Analyzer AnalyzerClaims AnalyzerFacts.

Section AnalysisProperties.
Variable resolve : string → string → option string.
Variable files : gmap string SourceFile.
Variable entry : gset string.

(** C2: when a reachable file holds a whole-namespace use of a module
    imported as a namespace ([Object.values(ns)], [for ... in ns], spread,
    or passing [ns] to a function), all exports of that module are marked
    referenced and none of them is in the unused-exports report. *)
Theorem namespace_conservatism (opts : Options) (g t : string) (u : NamespaceUse) :
  g ∈ resolved resolve files entry →
  usesNamespace resolve files g t u →
  wholeNamespace u = true →
  (t, MarkAll) ∈ references resolve files entry
  ∧ ∀ e, e ∈ exportsOf files t →
      referenced (references resolve files entry) t e = true
      ∧ (t, e) ∉ unusedExports resolve files entry opts.
Proof.
  intros Hg (spec & uses & Hin & Hr & Hu) Hkind.
  assert (Hall : (t, MarkAll) ∈ references resolve files entry).
  { apply references_spec. exists g, (Namespace uses).
    split; [done|]. split; [apply edges_spec; eauto|].
    simpl. apply list_elem_of_bind. exists u. split; [|done].
    destruct u; simpl in *; try done; by left. }
  split; [done|]. intros e He.
  assert (Href : referenced (references resolve files entry) t e = true).
  { unfold referenced. apply bool_decide_eq_true. by left. }
  split; [done|]. rewrite unusedExports_spec, reported_spec.
  intros (_ & _ & Hno & _). congruence.
Qed.

(** C3: a dynamic import whose specifier is not a literal yields no
    import edge; a project file that is not an entry and that no literal
    specifier resolves to is reported as unused, whatever dynamic
    specifiers would evaluate to its path; and adding such a dynamic
    import to a file leaves the unused-files report as it was. *)
Theorem dynamic_specifier_does_not_resolve (f : string) :
  f ∈ dom files → f ∉ entry → notImported resolve files f →
  (∀ argument b, isLiteral argument = false →
     importEdges (Dynamic argument b) = [])
  ∧ f ∈ unusedFiles resolve files entry
  ∧ (∀ g argument b, isLiteral argument = false →
       f ∈ unusedFiles resolve (withDynamicImport g argument b files) entry).
Proof.
  intros Hf Hentry Hnot.
  assert (Hunused : f ∈ unusedFiles resolve files entry).
  { unfold unusedFiles. apply elem_of_difference. split; [done|].
    intros [?|Hres]%elem_of_union; [done|].
    apply resolved_origin in Hres as [?|(g & b & Hedge)]; [done|].
    apply edges_spec in Hedge as (spec & Hin & Hr). by apply (Hnot g spec b). }
  split; [|split; [done|]].
  - intros argument b Hlit. by destruct argument.
  - intros g argument b Hlit. unfold unusedFiles, resolved in *.
    assert (Hdom : dom (withDynamicImport g argument b files) = dom files).
    { unfold withDynamicImport. by rewrite dom_alter_L. }
    rewrite (budget_ext resolve files)
      by (try done; intros; by apply edges_withDynamicImport).
    rewrite (traverse_ext resolve files)
      by (intros; by apply edges_withDynamicImport).
    by rewrite Hdom.
Qed.

(** C4, as amended: an export of a reachable file is reported unused
    iff no reference points to it, it carries neither [@public] nor a
    configured ignore tag, and its file is not an entry unless entry
    exports are included. *)
Theorem unused_exports_iff (opts : Options) (t : string) (e : Export) :
  t ∈ resolved resolve files entry → e ∈ exportsOf files t →
  ((t, e) ∈ unusedExports resolve files entry opts
   ↔ referenced (references resolve files entry) t e = false
     ∧ suppressed opts e = false
     ∧ (t ∉ entry ∨ includeEntryExports opts = true)).
Proof.
  intros Ht He. rewrite unusedExports_spec, reported_spec. tauto.
Qed.
End AnalysisProperties.

(** ** The properties on the sample inputs *)

Ltac by_computation := apply (bool_decide_unpack _); vm_compute; exact I.

Lemma expo_router_entry_is_production_witness :
  let options := {| manifest := routerManifest |} in
  let localConfig := ConfigObject (Wrapped emptyConfig) in
  main (manifest options) = Some "expo-router/entry"
  ∧ ("expo-router", true)
      ∈ contents packageNameOf localConfig options (start localConfig options).
Proof.
  split; [reflexivity|].
  apply expo_router_entry_is_production. reflexivity.
Defined.

Lemma plugin_entries_are_attributed_witness :
  let entries := [ PluginName "expo-font";
                   PluginTuple "expo-camera/plugin" [("cameraPermission", "Allow")];
                   PluginName "./plugins/local.js" ] in
  let options := {| manifest := emptyManifest |} in
  let localConfig := ConfigFunction (λ _, Bare (withPlugins entries emptyConfig)) in
  let table : gmap string Attribution.Entry :=
    <[ "expo-font" := Attribution.MkEntry (Some Attribution.Production) ∅ ∅ false ]>
    {[ "expo-camera" := Attribution.MkEntry (Some Attribution.Production) ∅ ∅ false ]} in
  let table' :=
    Attribution.attributeAll "expo"
      (specifier <$> returned packageNameOf localConfig options
                       (start localConfig options)) table in
  (packageNameOf "expo-font" = Some "expo-font"
   ∧ ("expo-font", false)
       ∈ contents packageNameOf localConfig options (start localConfig options)
   ∧ "expo-font" ∉ Attribution.unusedDependencies ∅ table')
  ∧ (packageNameOf "expo-camera/plugin" = Some "expo-camera"
     ∧ ("expo-camera", false)
         ∈ contents packageNameOf localConfig options (start localConfig options)
     ∧ "expo-camera" ∉ Attribution.unusedDependencies ∅ table').
Proof.
  intros entries options localConfig table table'. split.
  - split; [reflexivity|].
    destruct (plugin_entries_are_attributed packageNameOf localConfig options
                (start localConfig options) entries "expo-font" "expo-font")
      as (Hc & _ & Htable).
    + reflexivity.
    + left. left.
    + reflexivity.
    + discriminate.
    + split; [exact Hc|]. apply Htable.
  - split; [reflexivity|].
    destruct (plugin_entries_are_attributed packageNameOf localConfig options
                (start localConfig options) entries "expo-camera/plugin"
                "expo-camera")
      as (Hc & _ & Htable).
    + reflexivity.
    + right. exists [("cameraPermission", "Allow")]. right; left.
    + reflexivity.
    + discriminate.
    + split; [exact Hc|]. apply Htable.
Defined.

Lemma dynamic_specifier_does_not_resolve_witness :
  evaluate (λ _, "a") entryA = "./entry-a.ts"
  ∧ resolveSibling "index.ts" "./entry-a.ts" = Some "entry-a.ts"
  ∧ "entry-a.ts" ∈ unusedFiles resolveSibling dynamicProject {["index.ts"]}.
Proof.
  split; [reflexivity|]. split; [reflexivity|].
  apply (dynamic_specifier_does_not_resolve resolveSibling dynamicProject
           {["index.ts"]} "entry-a.ts").
  - by_computation.
  - by_computation.
  - intros g spec b Hin. exfalso. revert Hin.
    unfold importsOf, dynamicProject.
    destruct (decide (g = "index.ts")) as [->|Hg].
    + rewrite lookup_insert_eq. simpl. inversion 1.
    + rewrite lookup_insert_ne by done.
      destruct (decide (g = "entry-a.ts")) as [->|Hg'].
      * rewrite lookup_singleton_eq. simpl. inversion 1.
      * rewrite lookup_singleton_ne by done. simpl. inversion 1.
Defined.

Lemma unused_exports_iff_witness :
  "lib.js" ∈ resolved resolveSibling taggedProject {["index.js"]}
  ∧ ((("lib.js", plain "unused")
        ∈ unusedExports resolveSibling taggedProject {["index.js"]} defaults)
     ↔ referenced (references resolveSibling taggedProject {["index.js"]})
         "lib.js" (plain "unused") = false
       ∧ suppressed defaults (plain "unused") = false
       ∧ ("lib.js" ∉ ({["index.js"]} : gset string)
          ∨ includeEntryExports defaults = true)).
Proof.
  split; [by_computation|].
  apply unused_exports_iff; by_computation.
Defined.

Lemma namespace_conservatism_witness :
  "index.js" ∈ resolved resolveSibling fruitsProject {["index.js"]}
  ∧ usesNamespace resolveSibling fruitsProject "index.js" "fruits.js" Enumerate
  ∧ (∀ e, e ∈ exportsOf fruitsProject "fruits.js" →
       referenced (references resolveSibling fruitsProject {["index.js"]})
         "fruits.js" e = true
       ∧ ("fruits.js", e)
           ∉ unusedExports resolveSibling fruitsProject {["index.js"]} defaults).
Proof.
  assert (Hg : "index.js" ∈ resolved resolveSibling fruitsProject {["index.js"]})
    by by_computation.
  assert (Hu : usesNamespace resolveSibling fruitsProject "index.js" "fruits.js"
                 Enumerate).
  { exists "./fruits.js", [Enumerate]. split; [by_computation|].
    split; [reflexivity|by_computation]. }
  split; [exact Hg|]. split; [exact Hu|].
  apply (namespace_conservatism resolveSibling fruitsProject {["index.js"]}
           defaults "index.js" "fruits.js" Enumerate Hg Hu eq_refl).
Defined.

(** C4 fails as the specification words it: [api] in [lib.js] has no
    reference and [lib.js] is no entry, yet the [@public] tag keeps it out
    of the report. *)
Lemma unused_exports_iff_counterexample :
  ¬ unusedExportsIff resolveSibling taggedProject {["index.js"]} defaults.
Proof.
  intros H.
  destruct (H "lib.js" {| name := "api"; jsdoc := ["@public"] |}) as [_ Hback].
  - by_computation.
  - by_computation.
  - assert (Hin : ("lib.js", {| name := "api"; jsdoc := ["@public"] |})
                  ∈ unusedExports resolveSibling taggedProject {["index.js"]}
                      defaults).
    { apply Hback. split; [reflexivity|]. left. by_computation. }
    revert Hin. by_computation.
Qed.

(** C7 fails as stated: [plugins: ['expo-dev-client']] attributes
    expo-dev-client although it is only a key of [devDependencies]. *)
Lemma allow_listed_packages_counterexample :
  let localConfig :=
    ConfigObject (Wrapped (withPlugins [PluginName "expo-dev-client"] emptyConfig)) in
  let options := {| manifest := allowListManifest |} in
  ¬ allowListedIffManifestKey packageNameOf localConfig options
      (start localConfig options).
Proof.
  intros localConfig options (_ & _ & [Hkey _]).
  assert (Hin : "expo-dev-client" ∈ manifestKeys (manifest options)).
  { apply Hkey. by_computation. }
  revert Hin. by_computation.
Qed.

(** C10 fails as stated: [plugins: ['@expo/metro-runtime']] attributes
    the package on the default platforms, without ['web']. *)
Lemma metro_runtime_counterexample :
  let localConfig :=
    ConfigObject (Bare (withPlugins [PluginName "@expo/metro-runtime"] emptyConfig)) in
  let options := {| manifest := emptyManifest |} in
  ¬ metroRuntimeIffWebWithoutRouter packageNameOf localConfig options
      (start localConfig options).
Proof.
  intros localConfig options [Hweb _].
  destruct Hweb as [Hin _]; [unfold attributes; by_computation|].
  revert Hin. by_computation.
Qed.

(** ** The plugin and the analysis on concrete inputs *)

(** [{ expo: { platforms: ['ios', 'web'], plugins: ['expo-font',
    ['expo-atlas/plugin', {}], './local.js'] } }] with
    [{ main: 'expo-router/entry', dependencies: { 'expo-router': '*' } }]:
    two plugin packages, then expo-updates, expo-router and the two web
    packages, and no [@expo/metro-runtime]. *)
Example getDependencies_router_on_web :
  let config :=
    withPlatforms (Some ["ios"; "web"])
      (withPlugins [ PluginName "expo-font";
                     PluginTuple "expo-atlas/plugin" [];
                     PluginName "./local.js" ] emptyConfig) in
  let localConfig := ConfigObject (Wrapped config) in
  let options := {| manifest := routerManifest |} in
  contents packageNameOf localConfig options (start localConfig options)
  = [ ("expo-font", false); ("expo-atlas", false); ("expo-updates", true);
      ("expo-router", true); ("react-native-web", true); ("react-dom", true) ].
Proof. reflexivity. Qed.

(** The same package from [plugins] and from the allow-list is returned
    twice: the two inputs are different objects, which the set keeps
    apart. *)
Example getDependencies_keeps_both_objects :
  let config := withPlugins [PluginName "expo-atlas"] emptyConfig in
  let localConfig := ConfigFunction (λ _, Bare config) in
  let options := {| manifest := allowListManifest |} in
  returned packageNameOf localConfig options (start localConfig options)
  = [ MkInput 0 "dependency" "expo-atlas" false;
      MkInput 1 "dependency" "expo-atlas" false;
      MkInput 2 "dependency" "expo-insights" true;
      MkInput 3 "dependency" "expo-updates" true ].
Proof. reflexivity. Qed.

(** Scenario 2 of the specification: with [Object.values(Fruits)] in the
    entry file no export of [fruits.js] is reported; so with
    [send(Fruits)]. *)
Example fruits_enumerated :
  unusedExports resolveSibling fruitsProject {["index.js"]} defaults = [].
Proof. reflexivity. Qed.

Example fruits_sent :
  unusedExports resolveSibling sentFruitsProject {["index.js"]} defaults = [].
Proof. reflexivity. Qed.

Example tagged_export_kept_out :
  unusedExports resolveSibling taggedProject {["index.js"]} defaults
  = [ ("lib.js", plain "unused") ].
Proof. reflexivity. Qed.

Example dynamic_entry_unused :
  elements (unusedFiles resolveSibling dynamicProject {["index.ts"]})
  = [ "entry-a.ts" ].
Proof. reflexivity. Qed.

Import ExpoObjects.
Open Scope nat_scope.

(** ** More of the expo plugin *)

Lemma truthy_spec (v : option string) : truthy v = true ↔ nonEmpty v.
Proof.
  unfold truthy, nonEmpty. destruct v as [x|].
  - rewrite negb_true_iff, String.eqb_neq. naive_solver.
  - naive_solver.
Qed.

Lemma present_spec {A} (v : option A) : present v = true ↔ is_Some v.
Proof. destruct v; simpl; [split; eauto|split; [done|by intros [? ?]]]. Qed.

Section MoreContents.
Context {W : Type}.
Variable getPackageName : string → option string.
Implicit Types s : Realm W Input.

(** X1: expo-notifications is returned as a production dependency exactly
    when [config.notification] is set; without it the package is only
    attributed if [config.plugins] names it. *)
Theorem expo_notifications_iff localConfig options s :
  (("expo-notifications", true) ∈ contents getPackageName localConfig options s
     ↔ is_Some (notification (configOf localConfig)))
  ∧ (notification (configOf localConfig) = None →
       attributes getPackageName localConfig options s "expo-notifications"
       ↔ "expo-notifications"
           ∈ pluginPackages getPackageName (configOf localConfig)).
Proof.
  split.
  - rewrite contents_production. cbv zeta. naive_solver.
  - intros Hnone.
    rewrite attributes_contents, contents_production, contents_plain.
    cbv zeta. rewrite Hnone. naive_solver.
Qed.

(** X2: expo-system-ui is returned as a production dependency exactly when
    android is a platform and a user interface style is set at the top
    level or under [android], or ios is a platform and a background colour
    is set at the top level or under [ios]; an empty string does not count
    as set, and with neither android nor ios among the platforms the
    package is never returned as a production dependency. *)
Theorem expo_system_ui_iff localConfig options s :
  let config := configOf localConfig in
  (("expo-system-ui", true) ∈ contents getPackageName localConfig options s
     ↔ ("android" ∈ platformsOf config
        ∧ (nonEmpty (userInterfaceStyle config)
           ∨ nonEmpty (android config ≫= android_userInterfaceStyle)))
       ∨ ("ios" ∈ platformsOf config
          ∧ (nonEmpty (backgroundColor config)
             ∨ nonEmpty (ios config ≫= ios_backgroundColor))))
  ∧ ("android" ∉ platformsOf config → "ios" ∉ platformsOf config →
       ("expo-system-ui", true) ∉ contents getPackageName localConfig options s).
Proof.
  intros config.
  assert (Hiff : ("expo-system-ui", true) ∈ contents getPackageName localConfig options s
     ↔ ("android" ∈ platformsOf config
        ∧ (nonEmpty (userInterfaceStyle config)
           ∨ nonEmpty (android config ≫= android_userInterfaceStyle)))
       ∨ ("ios" ∈ platformsOf config
          ∧ (nonEmpty (backgroundColor config)
             ∨ nonEmpty (ios config ≫= ios_backgroundColor)))).
  { rewrite contents_production. cbv zeta. fold config.
    rewrite orb_true_iff, !andb_true_iff, !orb_true_iff, !includes_spec,
      !truthy_spec.
    naive_solver. }
  split; [exact Hiff|]. intros Ha Hi. rewrite Hiff. tauto.
Qed.

(** X3: expo-navigation-bar is returned as a production dependency exactly
    when android is a platform and [config.androidNavigationBar] is set. *)
Theorem expo_navigation_bar_iff localConfig options s :
  let config := configOf localConfig in
  (("expo-navigation-bar", true) ∈ contents getPackageName localConfig options s
     ↔ "android" ∈ platformsOf config ∧ is_Some (androidNavigationBar config))
  ∧ (platforms config = None →
       (("expo-navigation-bar", true) ∈ contents getPackageName localConfig options s
          ↔ is_Some (androidNavigationBar config))).
Proof.
  intros config.
  assert (Hiff : ("expo-navigation-bar", true) ∈ contents getPackageName localConfig options s
     ↔ "android" ∈ platformsOf config ∧ is_Some (androidNavigationBar config)).
  { rewrite contents_production. cbv zeta. fold config. naive_solver. }
  split; [exact Hiff|]. intros Hnone. rewrite Hiff.
  unfold platformsOf. rewrite Hnone. simpl. set_solver.
Qed.

(** X4: whatever the config and the manifest, a production dependency the
    function returns is one of eight packages, and a plain dependency is
    one of three packages or is named by [config.plugins]; the plugins
    never yield a production dependency. *)
Theorem returned_packages_are_known localConfig options s :
  Forall (λ i,
            type i = "dependency"
            ∧ if production i
              then specifier i ∈ productionPackages
              else specifier i ∈ plainPackages
                   ∨ specifier i
                       ∈ pluginPackages getPackageName (configOf localConfig))
         (returned getPackageName localConfig options s).
Proof.
  destruct (getDependencies_contents getPackageName localConfig options s)
    as (_ & _ & _ & Htype).
  apply Forall_forall. intros i Hi. split.
  { rewrite Forall_forall in Htype. by apply Htype. }
  assert (Hc : content i ∈ contents getPackageName localConfig options s).
  { unfold contents. apply list_elem_of_fmap. eauto. }
  unfold content in Hc. destruct (production i).
  - apply contents_production in Hc. cbv zeta in Hc.
    unfold productionPackages. set_solver.
  - apply contents_plain in Hc. cbv zeta in Hc.
    unfold plainPackages. set_solver.
Qed.
End MoreContents.

(** ** Allocation and the set *)

Section Packed.
Context {W : Type}.
Implicit Types s : Realm W Input.

Lemma consecutive_refs (xs : list Input) (lo : nat) :
  consecutive lo xs → ref <$> xs = seq lo (length xs).
Proof.
  revert lo. induction xs as [|x xs IH]; intros lo; [done|].
  intros [Hx Hxs]. rewrite fmap_cons. cbn [length seq]. by rewrite Hx, (IH _ Hxs).
Qed.

Lemma packed_fresh (x : Input) (base : nat) s :
  packed base s → ref x = next_ref s → has ref x (inputs s) = false.
Proof.
  intros [Hrefs Hnext] Hx. apply has_allocated.
  apply Forall_forall. intros i Hi.
  assert (Hin : ref i ∈ seq base (length (inputs s))).
  { rewrite <- Hrefs. apply list_elem_of_fmap. eauto. }
  apply elem_of_seq in Hin. lia.
Qed.

Lemma packed_snoc (x : Input) (base : nat) s :
  packed base s → ref x = next_ref s →
  packed base (MkRealm (outside s) (S (next_ref s)) (inputs s ++ [x])).
Proof.
  intros [Hrefs Hnext] Hx. unfold packed. simpl.
  rewrite fmap_app, length_app, Hrefs. simpl. split; [|lia].
  rewrite Nat.add_1_r, seq_S. by rewrite Hx, Hnext.
Qed.

Lemma keeps_mret : keeps (W:=W) (mret tt).
Proof. by intros base s Hs. Qed.

Lemma keeps_spread : keeps (W:=W) spread.
Proof. by intros base s Hs. Qed.

Lemma keeps_seq {A B} (m1 : M W Input A) (m2 : M W Input B) :
  keeps m1 → keeps m2 → keeps (m1 ;; m2).
Proof.
  intros H1 H2 base s Hs. rewrite bind_run. by apply H2, H1.
Qed.

Lemma keeps_when (c : bool) (m : M W Input unit) :
  keeps m → keeps (when c m).
Proof. intros Hm. destruct c; [done|apply keeps_mret]. Qed.

Lemma keeps_toDependency (id : string) :
  keeps (W:=W) (x ← toDependency id; Set_add ref x).
Proof.
  intros base s Hs. rewrite bind_run. unfold toDependency. rewrite bind_run. simpl.
  rewrite (packed_fresh (MkInput (next_ref s) "dependency" id false) base s) by done.
  simpl. by apply (packed_snoc (MkInput (next_ref s) "dependency" id false)).
Qed.

Lemma keeps_toProductionDependency (id : string) :
  keeps (W:=W) (x ← toProductionDependency id; Set_add ref x).
Proof.
  intros base s Hs. rewrite bind_run. unfold toProductionDependency.
  rewrite bind_run. simpl.
  rewrite (packed_fresh (MkInput (next_ref s) "dependency" id true) base s) by done.
  simpl. by apply (packed_snoc (MkInput (next_ref s) "dependency" id true)).
Qed.
End Packed.

(** ** The objects of the returned array *)

Ltac keeps_step :=
  first
    [ apply keeps_toDependency
    | apply keeps_toProductionDependency
    | apply keeps_spread
    | apply keeps_mret
    | apply keeps_when
    | apply keeps_seq ].

Section Objects.
Context {W : Type}.
Variable getPackageName : string → option string.
Implicit Types s : Realm W Input.

(** X5: the returned inputs are the objects the call allocates, each once
    and in the order of allocation: their identities count up from the
    first unused one, so none of them existed before the call, no object
    is returned twice, and the call allocates no object that it does not
    return. *)
Theorem returned_objects_are_fresh localConfig options s :
  let result := returned getPackageName localConfig options s in
  ref <$> result = seq (next_ref s) (length result)
  ∧ NoDup (ref <$> result)
  ∧ Forall (λ i, (next_ref s ≤ ref i)%nat) result
  ∧ next_ref (getDependencies getPackageName localConfig options s).2
    = next_ref s + length result.
Proof.
  intros result.
  assert (Hpacked : packed (next_ref s)
                      (getDependencies getPackageName localConfig options s).2).
  { unfold getDependencies. cbv zeta.
    set (pkgs := default [] _).
    rewrite bind_run. rewrite bind_run.
    destruct (mapM_toDependency pkgs s) as (Hc & _ & Hm & Hs).
    assert (Hlen : length (mapM toDependency pkgs s).1 = length pkgs).
    { by rewrite <- (length_fmap content), Hm, length_fmap. }
    assert (Hinit : packed (next_ref s)
              (new_Set ref (mapM toDependency pkgs s).1
                 (mapM toDependency pkgs s).2).2).
    { unfold new_Set. rewrite bind_run. cbn [fst snd].
      erewrite for_of_Set_add_consecutive; [|simpl; constructor|exact Hc].
      rewrite Hs. unfold packed. simpl. rewrite Hlen. split; [|done].
      rewrite <- Hlen. by apply consecutive_refs. }
    revert Hinit.
    generalize (new_Set ref (mapM toDependency pkgs s).1
                  (mapM toDependency pkgs s).2).2.
    intros s1 Hinit.
    match goal with |- packed _ (?rest s1).2 =>
      assert (Hrest : keeps rest) by (cbn [for_of]; repeat keeps_step) end.
    by apply Hrest. }
  destruct (getDependencies_contents getPackageName localConfig options s)
    as (_ & _ & Hr & _).
  destruct Hpacked as [Hrefs Hnext].
  fold (returned getPackageName localConfig options s) in Hr. fold result in Hr.
  rewrite <- Hr in Hrefs, Hnext.
  split; [done|]. split; [rewrite Hrefs; apply NoDup_seq|]. split; [|done].
  apply Forall_forall. intros i Hi.
  assert (Hin : ref i ∈ seq (next_ref s) (length result)).
  { rewrite <- Hrefs. apply list_elem_of_fmap. eauto. }
  apply elem_of_seq in Hin. lia.
Qed.
End Objects.

(** ** Counting the inputs that name a package *)

Lemma occurrences_app (x : string * bool) (l k : list (string * bool)) :
  occurrences x (l ++ k) = occurrences x l + occurrences x k.
Proof. unfold occurrences. by rewrite filter_app, length_app. Qed.

Lemma occurrences_one_le (x : string * bool) (c : bool) (n : string) (p : bool) :
  occurrences x (one c n p) ≤ occurrences x [(n, p)].
Proof. destruct c; simpl; [done|]. unfold occurrences. simpl. lia. Qed.

Lemma occurrences_one_ne (x : string * bool) (c : bool) (n : string) (p : bool) :
  x ≠ (n, p) → occurrences x (one c n p) = 0.
Proof.
  intros Hne. destruct c; [|done]. unfold occurrences, one.
  rewrite filter_cons_False by done. done.
Qed.

Lemma occurrences_one_eq (c : bool) (n : string) (p : bool) :
  occurrences (n, p) (one c n p) = if c then 1 else 0.
Proof.
  destruct c; [|done]. unfold occurrences, one.
  rewrite filter_cons_True by done. done.
Qed.

Lemma occurrences_plugins_production (pkg : string) (l : list string) :
  occurrences (pkg, true) ((λ id, (id, false)) <$> l) = 0.
Proof.
  unfold occurrences. induction l as [|y l IH]; [done|].
  rewrite fmap_cons, filter_cons_False by (intros ?; simplify_eq). exact IH.
Qed.

Lemma occurrences_plugins_plain (pkg : string) (l : list string) :
  occurrences (pkg, false) ((λ id, (id, false)) <$> l)
  = length (filter (λ y, y = pkg) l).
Proof.
  unfold occurrences. induction l as [|y l IH]; [done|].
  rewrite fmap_cons. destruct (decide (y = pkg)) as [->|Hne].
  - rewrite !filter_cons_True by done. simpl. by rewrite IH.
  - rewrite !filter_cons_False by (try done; intros ?; simplify_eq). exact IH.
Qed.

Lemma filter_absent {A} `{EqDecision A} (x : A) (l : list A) :
  x ∉ l → filter (λ y, y = x) l = [].
Proof.
  induction l as [|z l IH]; intros Hx; [done|].
  apply not_elem_of_cons in Hx as [Hne Hx].
  rewrite filter_cons_False by (intros ->; done). by apply IH.
Qed.

Lemma occurrences_NoDup (x : string * bool) (l : list (string * bool)) :
  NoDup l → occurrences x l ≤ 1.
Proof.
  unfold occurrences. induction 1 as [|y l Hy _ IH]; [simpl; lia|].
  destruct (decide (y = x)) as [->|Hne].
  - rewrite filter_cons_True by done. simpl.
    rewrite (filter_absent x l) by done. simpl. lia.
  - by rewrite filter_cons_False by done.
Qed.

Lemma length_filter_Boolean (xs : list (option string)) :
  length (filter_Boolean xs) ≤ length xs.
Proof.
  unfold filter_Boolean. induction xs as [|o xs IH]; [done|].
  cbn [omap list_omap length].
  destruct o as [x|]; [destruct (String.eqb x "")|]; simpl; lia.
Qed.

(** ** How often a package is returned, and in which order *)

Section Multiplicity.
Context {W : Type}.
Variable getPackageName : string → option string.
Implicit Types s : Realm W Input.

(** X6: the set does not merge inputs that name the same package, since each
    is an object of its own: expo-atlas and expo-dev-client are returned
    once for every entry of [config.plugins] that names them and once more
    when they are keys of [manifest.dependencies], so twice or more when
    both hold. *)
Theorem allow_listed_duplicates_are_kept localConfig options s (pkg : string) :
  pkg = "expo-atlas" ∨ pkg = "expo-dev-client" →
  occurrences (pkg, false) (contents getPackageName localConfig options s)
  = length (filter (λ y, y = pkg)
              (pluginPackages getPackageName (configOf localConfig)))
    + (if includes pkg (manifestKeys (manifest options)) then 1 else 0)
  ∧ (pkg ∈ pluginPackages getPackageName (configOf localConfig) →
     pkg ∈ manifestKeys (manifest options) →
     2 ≤ occurrences (pkg, false) (contents getPackageName localConfig options s)).
Proof.
  intros Hpkg.
  assert (Hcount :
    occurrences (pkg, false) (contents getPackageName localConfig options s)
    = length (filter (λ y, y = pkg)
                (pluginPackages getPackageName (configOf localConfig)))
      + (if includes pkg (manifestKeys (manifest options)) then 1 else 0)).
  { rewrite contents_attributed. unfold attributed. cbv zeta.
    rewrite !occurrences_app, occurrences_plugins_plain.
    destruct Hpkg as [-> | ->].
    - rewrite occurrences_one_eq.
      rewrite !occurrences_one_ne by (intros ?; simplify_eq). lia.
    - rewrite (occurrences_one_eq _ "expo-dev-client").
      rewrite !occurrences_one_ne by (intros ?; simplify_eq). lia. }
  split; [exact Hcount|]. intros Hplugin Hkey. rewrite Hcount.
  apply includes_spec in Hkey. rewrite Hkey.
  assert (Hpos : 0 < length (filter (λ y, y = pkg)
                   (pluginPackages getPackageName (configOf localConfig)))).
  { destruct (filter (λ y, y = pkg) _) as [|z l] eqn:Hf; [|simpl; lia].
    exfalso. by apply (filter_nil_not_elem_of _ _ pkg) in Hf. }
  lia.
Qed.

(** X7: no package is returned twice as a production dependency. *)
Theorem production_at_most_once localConfig options s (pkg : string) :
  occurrences (pkg, true) (contents getPackageName localConfig options s) ≤ 1.
Proof.
  rewrite contents_attributed. unfold attributed. cbv zeta.
  rewrite !occurrences_app, occurrences_plugins_production, Nat.add_0_l.
  etrans.
  { repeat (apply Nat.add_le_mono; [apply occurrences_one_le|]).
    apply occurrences_one_le. }
  rewrite <- !occurrences_app. simpl.
  apply occurrences_NoDup. by_computation.
Qed.

(** X8: the array starts with the inputs of [config.plugins], in the order of
    the entries and as plain dependencies; there is at most one for each
    entry, and none when [plugins] is absent. *)
Theorem plugin_inputs_come_first localConfig options s :
  let pkgs := pluginPackages getPackageName (configOf localConfig) in
  take (length pkgs) (contents getPackageName localConfig options s)
    = (λ id, (id, false)) <$> pkgs
  ∧ length pkgs ≤ length (default [] (plugins (configOf localConfig)))
  ∧ (plugins (configOf localConfig) = None → pkgs = []).
Proof.
  intros pkgs. split; [|split].
  - rewrite contents_attributed. unfold attributed. cbv zeta. fold pkgs.
    by rewrite take_app_length' by (by rewrite length_fmap).
  - unfold pkgs, pluginPackages.
    destruct (plugins (configOf localConfig)) as [ps|]; simpl; [|lia].
    etrans; [apply length_filter_Boolean|]. by rewrite length_map.
  - intros Hnone. unfold pkgs, pluginPackages. by rewrite Hnone.
Qed.
End Multiplicity.

(** ** What the function reads of its arguments *)

Lemma includes_ext (x : string) (xs ys : list string) :
  (x ∈ xs ↔ x ∈ ys) → includes x xs = includes x ys.
Proof. intros H. unfold includes. by apply bool_decide_ext. Qed.

Section Reads.
Context {W : Type}.
Variable getPackageName : string → option string.
Implicit Types s : Realm W Input.

Lemma getDependencies_configOf localConfig options s :
  getDependencies getPackageName localConfig options s
  = getDependencies getPackageName (ConfigObject (Bare (configOf localConfig)))
      options s.
Proof. by destruct localConfig as [[c|c]|f]. Qed.

(** X9: the options of a plugin entry are not looked at: two configs that
    differ only in [plugins], and whose entries name the same specifiers in
    the same order, whether as strings or as arrays, give the same result. *)
Theorem plugin_options_are_ignored localConfig localConfig' options s
    (config : AppConfig) (entries entries' : list PluginEntry) :
  configOf localConfig = withPlugins entries config →
  configOf localConfig' = withPlugins entries' config →
  map pluginName entries = map pluginName entries' →
  getDependencies getPackageName localConfig options s
  = getDependencies getPackageName localConfig' options s.
Proof.
  intros Hc Hc' Hnames.
  rewrite (getDependencies_configOf localConfig),
    (getDependencies_configOf localConfig'), Hc, Hc'.
  unfold getDependencies. cbv zeta. cbn [plugins withPlugins fmap option_fmap option_map].
  assert (Hpkgs : map (λ plugin, getPackageName (pluginName plugin)) entries
                  = map (λ plugin, getPackageName (pluginName plugin)) entries').
  { rewrite <- !(map_map pluginName getPackageName). by rewrite Hnames. }
  rewrite Hpkgs. reflexivity.
Qed.

(** X10: of [config.platforms] only the presence of ['web'], ['android'] and
    ['ios'] is read: two configs that differ only in [platforms], and
    whose lists agree on these three, give the same result, whatever the
    order, the repetitions and the other platforms. *)
Theorem only_three_platforms_are_read localConfig localConfig' options s
    (config : AppConfig) (ps ps' : list string) :
  configOf localConfig = withPlatforms (Some ps) config →
  configOf localConfig' = withPlatforms (Some ps') config →
  (∀ p, p ∈ ["web"; "android"; "ios"] → (p ∈ ps ↔ p ∈ ps')) →
  getDependencies getPackageName localConfig options s
  = getDependencies getPackageName localConfig' options s.
Proof.
  intros Hc Hc' Hsame.
  rewrite (getDependencies_configOf localConfig),
    (getDependencies_configOf localConfig'), Hc, Hc'.
  unfold getDependencies. cbv zeta.
  unfold withPlatforms. cbn [platforms default from_option id].
  rewrite (includes_ext "web" ps ps') by (apply Hsame; set_solver).
  rewrite (includes_ext "android" ps ps') by (apply Hsame; set_solver).
  rewrite (includes_ext "ios" ps ps') by (apply Hsame; set_solver).
  reflexivity.
Qed.

(** X11: of the manifest only two things are read: whether [main] is
    ['expo-router/entry'], and which of expo-atlas, expo-dev-client and
    expo-insights are keys of [dependencies]; two manifests that agree on
    these give the same result, whatever their version ranges and their
    other fields. *)
Theorem only_main_and_three_keys_are_read localConfig s
    (options options' : PluginOptions) :
  (main (manifest options) = Some "expo-router/entry"
     ↔ main (manifest options') = Some "expo-router/entry") →
  (∀ k, k ∈ ["expo-atlas"; "expo-dev-client"; "expo-insights"] →
        (k ∈ manifestKeys (manifest options)
           ↔ k ∈ manifestKeys (manifest options'))) →
  getDependencies getPackageName localConfig options s
  = getDependencies getPackageName localConfig options' s.
Proof.
  intros Hmain Hkeys.
  unfold getDependencies. cbv zeta. cbn [for_of].
  fold (manifestKeys (manifest options)). fold (manifestKeys (manifest options')).
  rewrite (includes_ext "expo-atlas" _ (manifestKeys (manifest options')))
    by (apply Hkeys; set_solver).
  rewrite (includes_ext "expo-dev-client" _ (manifestKeys (manifest options')))
    by (apply Hkeys; set_solver).
  rewrite (includes_ext "expo-insights" _ (manifestKeys (manifest options')))
    by (apply Hkeys; set_solver).
  rewrite (bool_decide_ext _ _ Hmain).
  reflexivity.
Qed.
End Reads.

(** ** Entry files and the unused-files report *)

Lemma Reachable_mono (resolve : string → string → option string)
    (files : gmap string SourceFile) (entry entry' : gset string) (x : string) :
  entry ⊆ entry' →
  Reachable resolve files entry x → Reachable resolve files entry' x.
Proof.
  intros Hsub. induction 1 as [f Hf|g t b _ IH Hedge].
  - apply reachable_entry. by apply Hsub.
  - by apply (reachable_import _ _ _ g t b).
Qed.

(** X12: with "unused files = project files - (entry files + resolved
    files)", adding files to the entry patterns takes them out of the
    report and puts no other file into it. *)
Theorem adding_entries_only_removes_unused_files
    (resolve : string → string → option string)
    (files : gmap string SourceFile) (entry entry' : gset string) :
  entry ⊆ entry' →
  unusedFiles resolve files entry' ⊆ unusedFiles resolve files entry
  ∧ (∀ f, f ∈ entry' → f ∉ unusedFiles resolve files entry').
Proof.
  intros Hsub. split.
  - intros f. unfold unusedFiles. rewrite !elem_of_difference, !elem_of_union.
    intros [Hf Hnot]. split; [done|]. intros [He|Hr]; apply Hnot.
    + left. by apply Hsub.
    + right. apply resolved_spec. apply resolved_spec in Hr.
      by apply (Reachable_mono resolve files entry entry').
  - intros f Hf. unfold unusedFiles. set_solver.
Qed.

(** ** The further properties on sample inputs *)

Ltac same_membership :=
  let H := fresh in
  split; intros H; first [by_computation | exfalso; revert H; by_computation].

Lemma allow_listed_duplicates_are_kept_witness :
  let localConfig :=
    ConfigObject (Bare (withPlugins [PluginName "expo-atlas"] emptyConfig)) in
  let options := {| manifest := allowListManifest |} in
  2 ≤ occurrences ("expo-atlas", false)
        (contents packageNameOf localConfig options (start localConfig options)).
Proof.
  intros localConfig options.
  destruct (allow_listed_duplicates_are_kept packageNameOf localConfig options
              (start localConfig options) "expo-atlas") as [_ Htwice].
  - by left.
  - apply Htwice; by_computation.
Defined.

Lemma plugin_options_are_ignored_witness :
  let entries := [ PluginName "expo-font";
                   PluginTuple "expo-camera" [("cameraPermission", "Allow")] ] in
  let entries' := [ PluginTuple "expo-font" [];
                    PluginName "expo-camera" ] in
  let options := {| manifest := routerManifest |} in
  let localConfig := ConfigObject (Wrapped (withPlugins entries emptyConfig)) in
  let localConfig' := ConfigFunction (λ _, Bare (withPlugins entries' emptyConfig)) in
  getDependencies packageNameOf localConfig options (start localConfig options)
  = getDependencies packageNameOf localConfig' options (start localConfig options).
Proof.
  intros entries entries' options localConfig localConfig'.
  apply (plugin_options_are_ignored packageNameOf localConfig localConfig'
           options _ emptyConfig entries entries'); reflexivity.
Defined.

Lemma only_three_platforms_are_read_witness :
  let options := {| manifest := emptyManifest |} in
  let localConfig :=
    ConfigObject (Bare (withPlatforms (Some ["ios"; "web"; "ios"; "tvos"]) emptyConfig)) in
  let localConfig' :=
    ConfigObject (Bare (withPlatforms (Some ["web"; "ios"]) emptyConfig)) in
  getDependencies packageNameOf localConfig options (start localConfig options)
  = getDependencies packageNameOf localConfig' options (start localConfig options).
Proof.
  intros options localConfig localConfig'.
  apply (only_three_platforms_are_read packageNameOf localConfig localConfig'
           options _ emptyConfig ["ios"; "web"; "ios"; "tvos"] ["web"; "ios"]);
    [reflexivity|reflexivity|].
  intros p Hp.
  repeat (apply elem_of_cons in Hp as [->|Hp]); [| | |by apply elem_of_nil in Hp];
    same_membership.
Defined.

Lemma only_main_and_three_keys_are_read_witness :
  let localConfig := ConfigObject (Bare emptyConfig) in
  let options := {| manifest := routerManifest |} in
  let options' :=
    {| manifest :=
         {| main := Some "expo-router/entry";
            dependencies := Some (<[ "expo-router" := "^3.5.0" ]> {[ "react" := "18.2.0" ]});
            devDependencies := Some {[ "expo-atlas" := "*" ]} |} |} in
  getDependencies packageNameOf localConfig options (start localConfig options)
  = getDependencies packageNameOf localConfig options' (start localConfig options).
Proof.
  intros localConfig options options'.
  apply (only_main_and_three_keys_are_read packageNameOf localConfig _
           options options').
  - done.
  - intros k Hk.
    repeat (apply elem_of_cons in Hk as [->|Hk]); [| | |by apply elem_of_nil in Hk];
      same_membership.
Defined.

Lemma adding_entries_only_removes_unused_files_witness :
  ({["index.ts"]} : gset string) ⊆ {["index.ts"; "entry-a.ts"]}
  ∧ "entry-a.ts" ∈ unusedFiles resolveSibling dynamicProject {["index.ts"]}
  ∧ "entry-a.ts"
      ∉ unusedFiles resolveSibling dynamicProject {["index.ts"; "entry-a.ts"]}.
Proof.
  split; [set_solver|]. split; [by_computation|].
  destruct (adding_entries_only_removes_unused_files resolveSibling dynamicProject
              {["index.ts"]} {["index.ts"; "entry-a.ts"]}) as [_ Hentry].
  - set_solver.
  - apply Hentry. set_solver.
Defined.

(** ** The heap: rules *)

Module ExpoHeapFacts.
Import Expo ExpoSummary ExpoHeap.

Lemma heap_bind_Some {A B} (m : H A) (f : A → H B) (h h' : Store) (a : A) :
  m h = Some (a, h') → (m ≫= f) h = f a h'.
Proof. intros Hm. unfold mbind, H_bind. by rewrite Hm. Qed.

Lemma heap_valid_alloc (h : Store) (c : Cell) :
  valid h → valid (MkStore (<[fresh h := c]> (cells h)) (S (fresh h))).
Proof.
  intros Hv l. simpl. destruct (decide (fresh h = l)) as [<-|Hne]; [lia|].
  rewrite lookup_insert_ne by done. intros Hl. specialize (Hv l Hl). lia.
Qed.

Section Rules.
Variable h0 : Store.
Variables base set : nat.

Lemma heap_adds_consequence {A} (m : H A) l l' (R R' : A → Store → Prop) :
  appends h0 base set m l R → l = l' → (∀ a h, R a h → R' a h) →
  appends h0 base set m l' R'.
Proof.
  intros Hm <- HR acc h Hh. destruct (Hm acc h Hh) as (a & h' & ? & ? & ?).
  eauto 10.
Qed.

Lemma heap_adds_mret : appends h0 base set (mret tt) [] (λ _ _, True).
Proof.
  intros acc h Hh. exists tt, h. rewrite app_nil_r. done.
Qed.

Lemma heap_adds_seq {A B} (m1 : H A) (m2 : H B) l1 l2 R1 R2 :
  appends h0 base set m1 l1 R1 → appends h0 base set m2 l2 R2 →
  appends h0 base set (m1 ;; m2) (l1 ++ l2) R2.
Proof.
  intros H1 H2 acc h Hh.
  destruct (H1 acc h Hh) as (a & h1 & Hm1 & Hh1 & _).
  destruct (H2 _ h1 Hh1) as (b & h2 & Hm2 & Hh2 & HR).
  exists b, h2. rewrite (heap_bind_Some _ _ _ _ _ Hm1), app_assoc. done.
Qed.

Lemma heap_adds_when (c : bool) (m : H unit) l R :
  appends h0 base set m l R →
  appends h0 base set (when c m) (if c then l else []) (λ _ _, True).
Proof.
  intros Hm. destruct c; simpl.
  - eapply heap_adds_consequence; [exact Hm|done|done].
  - apply heap_adds_mret.
Qed.

(** Allocating an input and adding it to the set. *)
Lemma heap_adds_input (id : string) (production : bool) :
  appends h0 base set
    (x ← alloc (InputCell "dependency" id production); Set_add set x)
    [(id, production)] (λ _ _, True).
Proof.
  intros acc h (Hframe & Hset & Hvalid & members & Hcell & Hbounds & Hsay).
  set (x := fresh h).
  set (h1 := MkStore (<[x := InputCell "dependency" id production]> (cells h)) (S x)).
  assert (Hx : x ∉ members).
  { intros Hin. rewrite Forall_forall in Hbounds.
    specialize (Hbounds x Hin). unfold x in Hbounds. lia. }
  assert (Hload : cells h1 !! set = Some (SetCell members)).
  { unfold h1. simpl. rewrite lookup_insert_ne by (unfold x; lia). done. }
  exists tt, (MkStore (<[set := SetCell (members ++ [x])]> (cells h1)) (S x)).
  split.
  { unfold alloc. erewrite heap_bind_Some by reflexivity. fold x. fold h1.
    unfold Set_add, load. unfold mbind at 1, H_bind at 1. rewrite Hload.
    rewrite bool_decide_eq_false_2 by done. reflexivity. }
  split; [|done]. split; [|split; [|split]].
  - intros l Hl. simpl.
    rewrite !lookup_insert_ne by (unfold x; lia). by apply Hframe.
  - simpl. lia.
  - intros l. simpl. destruct (decide (set = l)) as [<-|Hne]; [lia|].
    rewrite lookup_insert_ne by done.
    destruct (decide (x = l)) as [<-|Hne']; [lia|].
    rewrite lookup_insert_ne by done. intros Hl. specialize (Hvalid l Hl).
    unfold x. lia.
  - exists (members ++ [x]). simpl. split; [by rewrite lookup_insert_eq|].
    split.
    + apply Forall_app. split.
      * eapply Forall_impl; [exact Hbounds|]. simpl. intros m ?. unfold x. lia.
      * apply Forall_singleton. unfold x. lia.
    + rewrite !fmap_app. f_equal.
      * rewrite <- Hsay. apply Forall_fmap_ext.
        eapply Forall_impl; [exact Hbounds|]. simpl. intros m Hm.
        rewrite !lookup_insert_ne by (unfold x; lia). done.
      * simpl. rewrite lookup_insert_ne by (unfold x; lia).
        by rewrite lookup_insert_eq.
Qed.

Lemma heap_adds_toDependency (id : string) :
  appends h0 base set (x ← toDependency id; Set_add set x) [(id, false)] (λ _ _, True).
Proof. apply heap_adds_input. Qed.

Lemma heap_adds_toProductionDependency (id : string) :
  appends h0 base set (x ← toProductionDependency id; Set_add set x)
    [(id, true)] (λ _ _, True).
Proof. apply heap_adds_input. Qed.

Lemma heap_adds_spread :
  appends h0 base set (spread set) []
    (λ a h, cells h !! set = Some (SetCell a)).
Proof.
  intros acc h Hh. pose proof Hh as (_ & _ & _ & members & Hcell & _).
  exists members, h. rewrite app_nil_r. split; [|done].
  unfold spread, load. unfold mbind, H_bind. by rewrite Hcell.
Qed.
End Rules.

Ltac heap_step :=
  first
    [ apply heap_adds_toDependency
    | apply heap_adds_toProductionDependency
    | apply heap_adds_spread
    | apply heap_adds_mret
    | eapply heap_adds_when
    | eapply heap_adds_seq ].


(** [pluginPackages.map(id => toDependency(id))]: one new object for each
    name, at consecutive locations; the cells that were there stay. *)
Lemma heap_mapM_toDependency (pkgs : list string) (h : Store) :
  valid h →
  ∃ h', mapM toDependency pkgs h = Some (seq (fresh h) (length pkgs), h')
        ∧ fresh h' = fresh h + length pkgs
        ∧ valid h'
        ∧ (∀ l, l < fresh h → cells h' !! l = cells h !! l)
        ∧ (λ m, cells h' !! m) <$> seq (fresh h) (length pkgs)
          = (λ id, Some (InputCell "dependency" id false)) <$> pkgs.
Proof.
  revert h. induction pkgs as [|id pkgs IH]; intros h Hvalid.
  - exists h. simpl. split; [done|]. split; [lia|]. done.
  - set (h1 := MkStore (<[fresh h := InputCell "dependency" id false]> (cells h))
                 (S (fresh h))).
    destruct (IH h1) as (h' & Hrun & Hfresh & Hvalid' & Hframe & Hsay).
    { by apply heap_valid_alloc. }
    exists h'. simpl in Hrun, Hfresh, Hframe, Hsay.
    split; [|split; [|split; [|split]]].
    + cbn [mapM]. unfold toDependency at 1, alloc.
      erewrite heap_bind_Some by reflexivity. fold h1.
      erewrite heap_bind_Some by exact Hrun. reflexivity.
    + simpl. lia.
    + done.
    + intros l Hl. rewrite Hframe by lia. unfold h1. simpl.
      rewrite lookup_insert_ne by lia. done.
    + cbn [length seq]. rewrite !fmap_cons. f_equal; [|exact Hsay].
      rewrite Hframe by lia. unfold h1. simpl. by rewrite lookup_insert_eq.
Qed.

(** Filling the set from distinct objects keeps them all, and writes the
    set only. *)
Lemma heap_for_of_Set_add (set : nat) (xs members : list nat) (h : Store) :
  cells h !! set = Some (SetCell members) →
  NoDup (members ++ xs) →
  for_of xs (Set_add set) h
  = Some (tt, MkStore (<[set := SetCell (members ++ xs)]> (cells h)) (fresh h)).
Proof.
  revert members h. induction xs as [|x xs IH]; intros members h Hcell Hnodup.
  - simpl. rewrite app_nil_r, insert_id by done. by destruct h.
  - assert (Hx : x ∉ members).
    { apply NoDup_app in Hnodup as (_ & Hdisj & _). intros Hin.
      apply (Hdisj x Hin). by left. }
    cbn [for_of].
    assert (Hadd : Set_add set x h
                   = Some (tt, MkStore (<[set := SetCell (members ++ [x])]> (cells h))
                                 (fresh h))).
    { unfold Set_add, load. unfold mbind, H_bind. rewrite Hcell.
      by rewrite bool_decide_eq_false_2 by done. }
    erewrite heap_bind_Some by exact Hadd.
    rewrite (IH (members ++ [x])).
    + simpl. by rewrite insert_insert_eq, <- app_assoc.
    + simpl. by rewrite lookup_insert_eq.
    + by rewrite <- app_assoc.
Qed.

Section Call.
Variable getPackageName : string → option string.

(** A call on a heap that holds the two arguments succeeds; the inputs
    it returns say [attributed]; every cell that was there before is as it
    was; the returned objects are new. *)
Lemma getDependencies_on_heap (localConfig options : nat)
    (config : ExpoConfig) (o : PluginOptions) (h : Store) :
  valid h →
  cells h !! localConfig = Some (ConfigCell config) →
  cells h !! options = Some (OptionsCell o) →
  ∃ result h',
    getDependencies getPackageName localConfig options h = Some (result, h')
    ∧ describe h' <$> result
      = (λ d, Some ("dependency", d.1, d.2)) <$> attributed getPackageName config o
    ∧ (∀ l, l < fresh h → cells h' !! l = cells h !! l)
    ∧ valid h'
    ∧ Forall (λ x, (fresh h ≤ x)%nat) result.
Proof.
  intros Hvalid Hconfig Hoptions.
  unfold getDependencies.
  assert (Hrc : readConfig localConfig h = Some (config, h)).
  { unfold readConfig, load. unfold mbind, H_bind. by rewrite Hconfig. }
  assert (Hro : readOptions options h = Some (o, h)).
  { unfold readOptions, load. unfold mbind, H_bind. by rewrite Hoptions. }
  erewrite heap_bind_Some by exact Hrc. erewrite heap_bind_Some by exact Hro.
  cbv zeta. fold (configOf config).
  fold (pluginPackages getPackageName (configOf config)).
  set (pkgs := pluginPackages getPackageName (configOf config)).
  destruct (heap_mapM_toDependency pkgs h Hvalid)
    as (h1 & Hrun & Hfresh & Hvalid1 & Hframe1 & Hsay1).
  erewrite heap_bind_Some by exact Hrun.
  set (initial := seq (fresh h) (length pkgs)) in *.
  set (inputs := fresh h1).
  set (h2 := MkStore (<[inputs := SetCell []]> (cells h1)) (S inputs)).
  assert (Hnew : new_Set initial h1
                 = Some (inputs, MkStore (<[inputs := SetCell initial]> (cells h2))
                                   (S inputs))).
  { unfold new_Set, alloc. erewrite heap_bind_Some by reflexivity. fold inputs. fold h2.
    erewrite heap_bind_Some; [reflexivity|].
    rewrite (heap_for_of_Set_add inputs initial [] h2).
    - reflexivity.
    - unfold h2. simpl. by rewrite lookup_insert_eq.
    - simpl. apply NoDup_seq. }
  erewrite heap_bind_Some by exact Hnew.
  set (h3 := MkStore (<[inputs := SetCell initial]> (cells h2)) (S inputs)).
  assert (Hbelow : Forall (λ m, fresh h ≤ m < inputs) initial).
  { apply Forall_forall. intros m Hm%elem_of_seq. unfold inputs. lia. }
  assert (Hstart : running h (fresh h) inputs ((λ id, (id, false)) <$> pkgs) h3).
  { split; [|split; [|split]].
    - intros l Hl. unfold h3, h2. simpl.
      rewrite !lookup_insert_ne by (unfold inputs; lia). by apply Hframe1.
    - unfold h3, inputs. simpl. lia.
    - intros l. unfold h3, h2. simpl. rewrite insert_insert_eq.
      destruct (decide (inputs = l)) as [<-|Hne]; [lia|].
      rewrite lookup_insert_ne by done. intros Hl.
      specialize (Hvalid1 l Hl). unfold inputs. lia.
    - exists initial. unfold h3, h2. simpl. rewrite insert_insert_eq.
      split; [by rewrite lookup_insert_eq|]. split.
      + eapply Forall_impl; [exact Hbelow|]. simpl. lia.
      + transitivity ((λ m, cells h1 !! m) <$> initial).
        * apply Forall_fmap_ext.
          eapply Forall_impl; [exact Hbelow|]. simpl. intros m Hm.
          rewrite lookup_insert_ne by lia. done.
        * rewrite Hsay1, <- list_fmap_compose. reflexivity. }
  match goal with |- ∃ result h', ?rest h3 = _ ∧ _ =>
    assert (Hrest : appends h (fresh h) inputs rest
              (drop (length pkgs) (attributed getPackageName config o))
              (λ a h', cells h' !! inputs = Some (SetCell a))) end.
  { eapply heap_adds_consequence; [cbn [for_of]; repeat heap_step| |done].
    unfold attributed. cbv zeta. fold pkgs.
    rewrite drop_app_length' by (by rewrite length_fmap).
    unfold one, platformsOf, manifestKeys, isExpoRouter.
    destruct (Js.includes "web" _), (bool_decide (main _ = _));
      cbn [negb andb]; rewrite ?app_nil_r, <- ?app_assoc; reflexivity. }
  destruct (Hrest _ h3 Hstart) as (result & h' & Hcall & Hrunning & Hresult).
  exists result, h'. split; [exact Hcall|].
  destruct Hrunning as (Hframe & _ & Hvalid' & members & Hcell & Hbounds & Hsay).
  assert (members = result) as -> by congruence.
  split; [|split; [done|split; [done|]]].
  - assert (Hall : ((λ id, (id, false)) <$> pkgs)
                   ++ drop (length pkgs) (attributed getPackageName config o)
                   = attributed getPackageName config o).
    { unfold attributed. cbv zeta. fold pkgs.
      by rewrite drop_app_length' by (by rewrite length_fmap). }
    rewrite Hall in Hsay.
    transitivity ((λ c, match c with
                        | Some (InputCell t s p) => Some (t, s, p)
                        | _ => None
                        end) <$> ((λ m, cells h' !! m) <$> result)).
    { by rewrite <- list_fmap_compose. }
    rewrite Hsay, <- list_fmap_compose. done.
  - eapply Forall_impl; [exact Hbounds|]. simpl. lia.
Qed.
End Call.
End ExpoHeapFacts.

(** ** The expo plugin: what a call writes *)

Import Js Expo ExpoSummary ExpoClaims ExpoFacts ExpoHeapFacts.

Lemma valid_below (h : ExpoHeap.Store) :
  set_Forall (λ l, l < ExpoHeap.fresh h) (dom (ExpoHeap.cells h)) → ExpoHeap.valid h.
Proof. intros Hall l Hl. apply Hall. by apply elem_of_dom. Qed.

(** The inputs a call on the heap returns are those of [getDependencies]
    on the values of its arguments. *)
Lemma heap_inputs_are_returned {W} (getPackageName : string → option string)
    (config : ExpoConfig) (o : PluginOptions) (s : Realm W Input) :
  (λ d : string * bool, Some ("dependency", d.1, d.2))
    <$> attributed getPackageName config o
  = (λ i, Some (type i, specifier i, production i))
    <$> returned getPackageName config o s.
Proof.
  destruct (getDependencies_contents getPackageName config o s)
    as (Hc & _ & _ & Ht).
  rewrite <- Hc. fold (returned getPackageName config o s).
  rewrite <- list_fmap_compose. apply Forall_fmap_ext.
  eapply Forall_impl; [exact Ht|]. simpl. intros i ->. done.
Qed.

(** C5: two calls on the same [localConfig] (an object, or a function,
    which is pure) and the same options, in whatever heaps that hold them,
    succeed and return arrays of inputs that say the same, one by one: what
    [getDependencies] returns on the values of the two arguments.  A call
    leaves every object that existed before it as it was, the two arguments
    among them: it writes only the inputs and the set that it allocates
    itself, and the inputs it returns are new objects. *)
Theorem getDependencies_deterministic_and_side_effect_free
    (getPackageName : string → option string)
    (config : ExpoConfig) (o : PluginOptions)
    (localConfig1 options1 localConfig2 options2 : nat)
    (h1 h2 : ExpoHeap.Store) :
  ExpoHeap.valid h1 →
  ExpoHeap.cells h1 !! localConfig1 = Some (ExpoHeap.ConfigCell config) →
  ExpoHeap.cells h1 !! options1 = Some (ExpoHeap.OptionsCell o) →
  ExpoHeap.valid h2 →
  ExpoHeap.cells h2 !! localConfig2 = Some (ExpoHeap.ConfigCell config) →
  ExpoHeap.cells h2 !! options2 = Some (ExpoHeap.OptionsCell o) →
  ∃ result1 h1' result2 h2',
    ExpoHeap.getDependencies getPackageName localConfig1 options1 h1
      = Some (result1, h1')
    ∧ ExpoHeap.getDependencies getPackageName localConfig2 options2 h2
      = Some (result2, h2')
    ∧ ExpoHeap.describe h1' <$> result1 = ExpoHeap.describe h2' <$> result2
    ∧ (∀ W (s : Realm W Input),
         ExpoHeap.describe h1' <$> result1
         = (λ i, Some (type i, specifier i, production i))
           <$> returned getPackageName config o s)
    ∧ (∀ l c, ExpoHeap.cells h1 !! l = Some c → ExpoHeap.cells h1' !! l = Some c)
    ∧ (∀ l c, ExpoHeap.cells h2 !! l = Some c → ExpoHeap.cells h2' !! l = Some c)
    ∧ Forall (λ x, ExpoHeap.cells h1 !! x = None) result1
    ∧ Forall (λ x, ExpoHeap.cells h2 !! x = None) result2
    ∧ ExpoHeap.valid h1' ∧ ExpoHeap.valid h2'.
Proof.
  intros Hv1 Hc1 Ho1 Hv2 Hc2 Ho2.
  destruct (getDependencies_on_heap getPackageName localConfig1 options1
              config o h1 Hv1 Hc1 Ho1)
    as (result1 & h1' & Hcall1 & Hsay1 & Hframe1 & Hvalid1 & Hnew1).
  destruct (getDependencies_on_heap getPackageName localConfig2 options2
              config o h2 Hv2 Hc2 Ho2)
    as (result2 & h2' & Hcall2 & Hsay2 & Hframe2 & Hvalid2 & Hnew2).
  exists result1, h1', result2, h2'.
  split; [exact Hcall1|]. split; [exact Hcall2|].
  split; [by rewrite Hsay1, Hsay2|].
  split; [intros W s; rewrite Hsay1; apply heap_inputs_are_returned|].
  assert (Hkept : ∀ (h h' : ExpoHeap.Store),
            ExpoHeap.valid h →
            (∀ l, l < ExpoHeap.fresh h → ExpoHeap.cells h' !! l = ExpoHeap.cells h !! l) →
            ∀ l c, ExpoHeap.cells h !! l = Some c → ExpoHeap.cells h' !! l = Some c).
  { intros h h' Hv Hframe l c Hl. rewrite Hframe; [done|]. apply Hv. eauto. }
  assert (Hfresh : ∀ (h : ExpoHeap.Store) (result : list nat),
            ExpoHeap.valid h →
            Forall (λ x, (ExpoHeap.fresh h ≤ x)%nat) result →
            Forall (λ x, ExpoHeap.cells h !! x = None) result).
  { intros h result Hv Hnew. eapply Forall_impl; [exact Hnew|]. simpl.
    intros x Hx. destruct (ExpoHeap.cells h !! x) as [c|] eqn:Hl; [|done].
    assert (x < ExpoHeap.fresh h) by (apply Hv; eauto). lia. }
  split; [by apply (Hkept h1 h1')|]. split; [by apply (Hkept h2 h2')|].
  split; [by apply Hfresh|]. split; [by apply Hfresh|]. done.
Qed.

Lemma getDependencies_deterministic_and_side_effect_free_witness :
  let localConfig :=
    ConfigFunction (λ _, Wrapped (withPlugins [PluginName "expo-atlas"] emptyConfig)) in
  let options := {| manifest := allowListManifest |} in
  let h1 := ExpoHeap.sampleStore localConfig options in
  let h2 :=
    ExpoHeap.MkStore
      (<[ 7 := ExpoHeap.ConfigCell localConfig ]>
       {[ 4 := ExpoHeap.OptionsCell options ]}) 9 in
  ∃ result1 h1' result2 h2',
    ExpoHeap.getDependencies packageNameOf 0 1 h1 = Some (result1, h1')
    ∧ ExpoHeap.getDependencies packageNameOf 7 4 h2 = Some (result2, h2')
    ∧ ExpoHeap.describe h1' <$> result1 = ExpoHeap.describe h2' <$> result2
    ∧ ExpoHeap.cells h1' !! 0 = Some (ExpoHeap.ConfigCell localConfig)
    ∧ ExpoHeap.cells h1' !! 1 = Some (ExpoHeap.OptionsCell options)
    ∧ ExpoHeap.cells h1' !! 2
      = Some (ExpoHeap.InputCell "dependency" "left-over" false).
Proof.
  intros localConfig options h1 h2.
  destruct (getDependencies_deterministic_and_side_effect_free packageNameOf
              localConfig options 0 1 7 4 h1 h2)
    as (result1 & h1' & result2 & h2' & Hcall1 & Hcall2 & Hsame & _ & Hkept & _).
  - apply valid_below. by_computation.
  - reflexivity.
  - reflexivity.
  - apply valid_below. by_computation.
  - reflexivity.
  - reflexivity.
  - exists result1, h1', result2, h2'.
    split; [exact Hcall1|]. split; [exact Hcall2|]. split; [exact Hsame|].
    split; [|split]; apply Hkept; reflexivity.
Defined.

(** On the sample heap: the inputs are allocated after the three objects
    that were there. *)
Example getDependencies_on_sample_heap :
  let localConfig :=
    ConfigObject (Wrapped (withPlugins [PluginName "expo-atlas"] emptyConfig)) in
  let options := {| manifest := allowListManifest |} in
  match ExpoHeap.getDependencies packageNameOf 0 1
          (ExpoHeap.sampleStore localConfig options) with
  | Some (result, h) => Some (result, ExpoHeap.describe h <$> result)
  | None => None
  end
  = Some ([3; 5; 6; 7],
          [ Some ("dependency", "expo-atlas", false);
            Some ("dependency", "expo-atlas", false);
            Some ("dependency", "expo-insights", true);
            Some ("dependency", "expo-updates", true) ]).
Proof. reflexivity. Qed.

(** A call that is handed something else than the two objects throws. *)
Example getDependencies_throws :
  ExpoHeap.getDependencies packageNameOf 1 0
    (ExpoHeap.sampleStore (ConfigObject (Bare emptyConfig))
       {| manifest := emptyManifest |}) = None.
Proof. reflexivity. Qed.
